(** * Distributed N-body simulation: a model of [n_body_problem_distributed.py]

    The development embeds the force kernel [calculate_accelerations] and the
    SPMD loop of [main] and states the properties of the design document
    about them.  The arithmetic of the program is kept abstract in a class
    [Scalar]; it is instantiated with the real numbers (exact arithmetic, in
    which the theorems are proved) and with binary64 floats (the arithmetic
    the program runs in, in which the model can be evaluated). *)

From Stdlib Require Import Floats.
From Stdlib Require Import ZArith Reals Lra Lia.
From stdpp Require Import base decidable list gmap sets.

Set Default Proof Using "Type".

(** ** Faults

    Python exceptions the modelled code can raise, and a result type that
    carries them. *)

Inductive error : Set :=
  | ValueError          (* slice step zero, operands of different shapes *)
  | IndexError          (* index out of bounds *)
  | TypeError           (* an array operation on [None] *)
  | ZeroDivisionError.  (* a division whose divisor is zero *)

Inductive result (A : Type) : Type :=
  | Ok (a : A)
  | Raise (e : error).
Arguments Ok {A} a.
Arguments Raise {A} e.

Definition bind {A B} (m : result A) (k : A -> result B) : result B :=
  match m with
  | Ok a => k a
  | Raise e => Raise e
  end.

Declare Scope result_scope.
Delimit Scope result_scope with result.
Notation "x <- m ;; k" := (bind m (fun x => k))
  (at level 100, m at next level, right associativity) : result_scope.
Open Scope result_scope.

#[global] Instance error_eq_dec : EqDecision error.
Proof. solve_decision. Defined.

(** ** Arithmetic

    The operations the program applies to array elements.  [quotient] is the
    raw division; the program's [/] is [div] below, which reports a zero
    divisor. *)

Class Scalar (F : Type) := {
  of_Z : Z -> F;
  half : F;                         (* the literal 0.5 *)
  G : F;                            (* the literal 6.67430e-11 *)
  add : F -> F -> F;
  sub : F -> F -> F;
  mul : F -> F -> F;
  quotient : F -> F -> F;
  root : F -> F;                    (* np.sqrt *)
  eqb : F -> F -> bool;
  ltb : F -> F -> bool;
  leb : F -> F -> bool;
}.

Definition zero `{Scalar F} : F := of_Z 0.
Definition one `{Scalar F} : F := of_Z 1.

(** numpy signals a division by zero (a warning or an exception, by the
    error state) and stores inf or nan; the model records the signal as the
    fault [ZeroDivisionError]. *)
Definition div `{Scalar F} (x y : F) : result F :=
  if eqb y zero then Raise ZeroDivisionError else Ok (quotient x y).

#[global] Instance Rlt_decision (x y : R) : Decision (x < y)%R := Rlt_dec x y.
#[global] Instance Rle_decision (x y : R) : Decision (x <= y)%R := Rle_dec x y.
#[global] Instance Req_decision : EqDecision R := Req_dec_T.

(** Exact arithmetic. *)
#[global] Instance R_scalar : Scalar R := {|
  of_Z := IZR;
  half := (1 / 2)%R;
  G := (667430 / 10000000000000000)%R;
  add := Rplus;
  sub := Rminus;
  mul := Rmult;
  quotient := Rdiv;
  root := R_sqrt.sqrt;
  eqb := fun x y => bool_decide (x = y);
  ltb := fun x y => bool_decide (x < y)%R;
  leb := fun x y => bool_decide (x <= y)%R;
|}.

Definition float_of_Z (z : Z) : float :=
  if (z <? 0)%Z then PrimFloat.opp (PrimFloat.of_uint63 (Uint63.of_Z (- z)))
  else PrimFloat.of_uint63 (Uint63.of_Z z).

(** binary64 arithmetic; [G] is the double nearest to 6.67430e-11. *)
#[global] Instance float_scalar : Scalar float := {|
  of_Z := float_of_Z;
  half := 0.5%float;
  G := 0x1.2589effed8accp-34%float;
  add := PrimFloat.add;
  sub := PrimFloat.sub;
  mul := PrimFloat.mul;
  quotient := PrimFloat.div;
  root := PrimFloat.sqrt;
  eqb := PrimFloat.eqb;
  ltb := PrimFloat.ltb;
  leb := PrimFloat.leb;
|}.

(** ** The force kernel, [calculate_accelerations] *)

Section Kernel.
Context {F : Type} `{Scalar F}.

(** A row of an array of shape (n, 2). *)
Definition vec : Type := F * F.
Definition vzero : vec := (zero, zero).

(** [l[skip::step]] for [step >= 1]: drop [skip] elements, keep one, drop
    [step - 1], keep one, ... *)
Fixpoint stride {A} (step skip : nat) (l : list A) : list A :=
  match l with
  | [] => []
  | x :: l' =>
      match skip with
      | O => x :: stride step (step - 1) l'
      | S k => stride step k l'
      end
  end.

(** [positions[rank::size, :]]; Python refuses a slice step of zero. *)
Definition slice_from {A} (rank size : nat) (l : list A) : result (list A) :=
  if decide (size = 0) then Raise ValueError else Ok (stride size rank l).

(** [positions[j, :]] *)
Definition row (positions : list vec) (j : nat) : result vec :=
  match positions !! j with
  | Some p => Ok p
  | None => Raise IndexError
  end.

(** Lines 30-37: the body of the inner loop for the local row [i], whose
    position is [local_i], at the pair [(j, mass)] of [enumerate(masses)];
    [acc] is [local_accelerations[i, :]].  The test [i != j] compares the
    local index [i] with the global index [j], as the source does. *)
Definition pair_step (positions : list vec) (local_i : vec) (i j : nat)
    (mass : F) (acc : vec) : result vec :=
  if decide (i = j) then Ok acc
  else
    pj <- row positions j ;;
    let dx := sub (fst pj) (fst local_i) in
    let dy := sub (snd pj) (snd local_i) in
    let distance := root (add (mul dx dx) (mul dy dy)) in
    if ltb zero distance then
      force <- div (mul G mass) (mul distance distance) ;;
      ax <- div (mul force dx) distance ;;
      ay <- div (mul force dy) distance ;;
      Ok (add (fst acc) ax, add (snd acc) ay)
    else Ok acc.

(** Lines 29-37: [for j, mass in enumerate(masses)], from index [j] on. *)
Fixpoint inner_loop (positions : list vec) (local_i : vec) (i j : nat)
    (masses : list F) (acc : vec) : result vec :=
  match masses with
  | [] => Ok acc
  | mass :: rest =>
      acc' <- pair_step positions local_i i j mass acc ;;
      inner_loop positions local_i i (S j) rest acc'
  end.

(** Lines 26-37: [for i in range(n)], from local index [i] on; every row
    of [local_accelerations] starts at zero. *)
Fixpoint outer_loop (positions : list vec) (masses : list F) (i : nat)
    (local_positions : list vec) : result (list vec) :=
  match local_positions with
  | [] => Ok []
  | local_i :: rest =>
      a <- inner_loop positions local_i i 0 masses vzero ;;
      r <- outer_loop positions masses (S i) rest ;;
      Ok (a :: r)
  end.

(** Lines 40-41: [accelerations[rank + i * size, :] = local_accelerations[i, :]],
    from local index [i] on. *)
Fixpoint write_back (rank size i : nat) (local_accelerations : list vec)
    (accelerations : list vec) : result (list vec) :=
  match local_accelerations with
  | [] => Ok accelerations
  | a :: rest =>
      if decide (rank + i * size < length accelerations)
      then write_back rank size (S i) rest (<[rank + i * size := a]> accelerations)
      else Raise IndexError
  end.

Definition calculate_accelerations (rank size : nat) (positions : list vec)
    (masses : list F) : result (list vec) :=
  local_positions <- slice_from rank size positions ;;
  local_accelerations <- outer_loop positions masses 0 local_positions ;;
  write_back rank size 0 local_accelerations
    (replicate (length positions) vzero).
End Kernel.

Arguments vec F : clear implicits.

(** ** The SPMD program, [main]

    The ranks of the communicator run [main] side by side; a [world] holds
    the variables of every rank, rank [r] at index [r].  A collective is a
    function on the world.  Every rank records the MPI calls it issues. *)

Inductive buffer : Set := Positions | Masses | Velocities | Accelerations.

Inductive mpi_call : Set :=
  | bcast (b : buffer)    (* comm.bcast(obj, root=0) *)
  | Bcast (b : buffer)    (* comm.Bcast(buf, root=0) *)
  | Reduce (b : buffer)   (* comm.Reduce(sendbuf, recvbuf, op=MPI.SUM, root=0) *)
  | Barrier.              (* comm.Barrier() *)

#[global] Instance buffer_eq_dec : EqDecision buffer.
Proof. solve_decision. Defined.
#[global] Instance mpi_call_eq_dec : EqDecision mpi_call.
Proof. solve_decision. Defined.

Section Program.
Context {F : Type} `{Scalar F}.

(** The variables of [main] on one rank; an array variable holds [None]
    until it is assigned an array. *)
Record process : Type := Process {
  t : F;
  positions : option (list (vec F));
  masses : option (list F);
  velocities : option (list (vec F));
  calls : list mpi_call;            (* oldest first *)
}.

Definition world : Type := list process.

Definition set_t (x : F) (p : process) : process :=
  Process x (positions p) (masses p) (velocities p) (calls p).
Definition set_positions (x : option (list (vec F))) (p : process) : process :=
  Process (t p) x (masses p) (velocities p) (calls p).
Definition set_masses (x : option (list F)) (p : process) : process :=
  Process (t p) (positions p) x (velocities p) (calls p).
Definition set_velocities (x : option (list (vec F))) (p : process) : process :=
  Process (t p) (positions p) (masses p) x (calls p).
Definition call (c : mpi_call) (p : process) : process :=
  Process (t p) (positions p) (masses p) (velocities p) (calls p ++ [c]).

(** Reading an array variable. *)
Definition array {A} (x : option A) : result A :=
  match x with
  | Some a => Ok a
  | None => Raise TypeError
  end.

(** The root of every collective of the program is rank 0. *)
Definition root_of (w : world) : result process :=
  match w with
  | root :: _ => Ok root
  | [] => Raise ValueError
  end.

(** Runs [f] on rank 0 only: the branches [if comm.rank == 0]. *)
Definition at_root (f : process -> result process) (w : world) : result world :=
  match w with
  | root :: others => root' <- f root ;; Ok (root' :: others)
  | [] => Raise ValueError
  end.

(** [x = comm.bcast(x, root=0)], called by every rank: each rank is
    handed the object of the root. *)
Definition MPI_bcast {A} (b : buffer) (get : process -> A)
    (set : A -> process -> process) (w : world) : result world :=
  root <- root_of w ;;
  Ok ((fun p => call (bcast b) (set (get root) p)) <$> w).

(** [comm.Bcast(positions, root=0)], called by the ranks in [callers]: the
    buffer of a caller receives the contents of the root's buffer; the
    variables of a rank that does not make the call are not touched.  MPI
    calls a program erroneous when some ranks skip a collective; the model
    reads it in the way most favourable to the program and lets the callers
    return. *)
Definition MPI_Bcast_positions (callers : nat -> bool) (w : world) : result world :=
  root <- root_of w ;;
  Ok (imap (fun rank p =>
              if callers rank
              then call (Bcast Positions) (set_positions (positions root) p)
              else p) w).

Definition vadd (x y : vec F) : vec F := (add (fst x) (fst y), add (snd x) (snd y)).
Definition scale (c : F) (x : vec F) : vec F := (mul c (fst x), mul c (snd x)).

(** Element-wise sum of two arrays of one shape. *)
Definition array_add (x y : list (vec F)) : result (list (vec F)) :=
  if decide (length x = length y) then Ok (zip_with vadd x y)
  else Raise ValueError.

(** The reduction [op=MPI.SUM] over the send buffers, in rank order. *)
Fixpoint MPI_SUM (acc : list (vec F)) (bufs : list (list (vec F))) : result (list (vec F)) :=
  match bufs with
  | [] => Ok acc
  | b :: rest => acc' <- array_add acc b ;; MPI_SUM acc' rest
  end.

Definition reduce (bufs : list (list (vec F))) : result (list (vec F)) :=
  match bufs with
  | [] => Raise ValueError
  | b :: rest => MPI_SUM b rest
  end.

(** [local_accelerations = calculate_accelerations(positions, masses)] on
    the ranks [rank], [rank + 1], ... of a communicator of [size] ranks,
    each with its own variables. *)
Fixpoint evaluate (size rank : nat) (w : world) : result (list (list (vec F))) :=
  match w with
  | [] => Ok []
  | p :: rest =>
      x <- array (positions p) ;;
      m <- array (masses p) ;;
      a <- calculate_accelerations rank size x m ;;
      r <- evaluate size (S rank) rest ;;
      Ok (a :: r)
  end.

(** Lines 86-94 and 109-115: every rank evaluates its stripe and the
    stripes are summed into [all_accelerations] at the root. *)
Definition reduce_accelerations (w : world) : result (list (vec F) * world) :=
  locals <- evaluate (length w) 0 w ;;
  all_accelerations <- reduce locals ;;
  Ok (all_accelerations, call (Reduce Accelerations) <$> w).

(** [velocities += 0.5 * dt * all_accelerations] *)
Definition half_kick (dt : F) (all_accelerations : list (vec F)) (p : process)
    : result process :=
  v <- array (velocities p) ;;
  v' <- array_add v (scale (mul half dt) <$> all_accelerations) ;;
  Ok (set_velocities (Some v') p).

(** [positions += dt * velocities] *)
Definition drift (dt : F) (p : process) : result process :=
  x <- array (positions p) ;;
  v <- array (velocities p) ;;
  x' <- array_add x (scale dt <$> v) ;;
  Ok (set_positions (Some x') p).

(** [t += dt] *)
Definition advance (dt : F) (p : process) : process := set_t (add (t p) dt) p.

(** Lines 86-106: from the top of the loop body to the barrier. *)
Definition first_half (dt : F) (w : world) : result world :=
  r <- reduce_accelerations w ;;
  let (all_accelerations, w1) := r in
  w2 <- at_root (fun p => p' <- half_kick dt all_accelerations p ;; drift dt p') w1 ;;
  w3 <- MPI_Bcast_positions (fun rank => bool_decide (rank = 0)) w2 ;;
  Ok (call Barrier <$> w3).

(** Lines 109-122 (without the plotting): from the barrier to the end of
    the loop body. *)
Definition second_half (dt : F) (w : world) : result world :=
  r <- reduce_accelerations w ;;
  let (all_accelerations, w1) := r in
  at_root (fun p => p' <- half_kick dt all_accelerations p ;; Ok (advance dt p')) w1.

Definition loop_body (dt : F) (w : world) : result world :=
  w' <- first_half dt w ;; second_half dt w'.

(** Lines 52-79: every rank starts with [t = 0]; the root holds the
    initial conditions, the other ranks [None]; three broadcasts follow. *)
Definition startup (size : nat) (P0 : list (vec F)) (M0 : list F)
    (V0 : list (vec F)) : result world :=
  let w0 := (fun rank =>
               if decide (rank = 0)
               then Process zero (Some P0) (Some M0) (Some V0) []
               else Process zero None None None []) <$> seq 0 size in
  w1 <- MPI_bcast Positions positions set_positions w0 ;;
  w2 <- MPI_bcast Masses masses set_masses w1 ;;
  MPI_bcast Velocities velocities set_velocities w2.

(** What becomes of the run. *)
Inductive outcome : Type :=
  | Finished (w : world)   (* every rank has left the loop *)
  | Hung (w : world)       (* some ranks have left the loop; the others
                              wait in a collective that never completes *)
  | Running (w : world)    (* still in the loop when the fuel ran out *)
  | Failed (e : error).

(** Line 82: [while t <= t_end], tested by every rank on its own [t]. *)
Definition in_loop (t_end : F) (p : process) : bool := leb (t p) t_end.

Fixpoint main_loop (fuel : nat) (t_end dt : F) (w : world) : outcome :=
  if forallb (in_loop t_end) w then
    match fuel with
    | O => Running w
    | S fuel' =>
        match loop_body dt w with
        | Ok w' => main_loop fuel' t_end dt w'
        | Raise e => Failed e
        end
    end
  else if existsb (in_loop t_end) w then Hung w
  else Finished w.

(** [main] with [t_end = 1] and [dt = 1.0 / 60]; the random initial
    conditions are parameters. *)
Definition main (fuel size : nat) (P0 : list (vec F)) (M0 : list F)
    (V0 : list (vec F)) : outcome :=
  match startup size P0 M0 V0 with
  | Ok w => main_loop fuel one (quotient one (of_Z 60)) w
  | Raise e => Failed e
  end.

(** The arrays that the kick and the drift store when the shapes agree. *)
Definition kicked (dt : F) (all_accelerations v : list (vec F)) : list (vec F) :=
  zip_with vadd v (scale (mul half dt) <$> all_accelerations).
Definition drifted (dt : F) (v x : list (vec F)) : list (vec F) :=
  zip_with vadd x (scale dt <$> v).

(** The loop body run [k] times in a row. *)
Fixpoint iterations (k : nat) (dt : F) (w : world) : result world :=
  match k with
  | O => Ok w
  | S k' => w' <- loop_body dt w ;; iterations k' dt w'
  end.

(** A rank holds arrays of [N] rows in its three array variables. *)
Definition holds (N : nat) (p : process) : Prop :=
  match positions p, masses p, velocities p with
  | Some x, Some m, Some v => length x = N /\ length m = N /\ length v = N
  | _, _, _ => False
  end.

(** The statement of the design document on velocities: no rank but the
    coordinator holds a velocity array or takes part in a transfer of one. *)
Definition velocities_only_at_coordinator (w : world) : Prop :=
  forall rank p, w !! rank = Some p -> rank <> 0 ->
    velocities p = None /\
    (bcast Velocities ∉ calls p) /\ (Bcast Velocities ∉ calls p) /\
    (Reduce Velocities ∉ calls p).

(** The MPI calls in program order: of every rank during start-up (lines
    77-79), of rank 0 in one pass of the loop body (lines 94, 104, 106, 115)
    and of any other rank in one pass (lines 94, 106, 115). *)
Definition startup_calls : list mpi_call :=
  [bcast Positions; bcast Masses; bcast Velocities].
Definition root_calls : list mpi_call :=
  [Reduce Accelerations; Bcast Positions; Barrier; Reduce Accelerations].
Definition worker_calls : list mpi_call :=
  [Reduce Accelerations; Barrier; Reduce Accelerations].

(** A rank other than 0 after [k] passes of the loop body: its variables are
    what they were. *)
Definition worker_after (k : nat) (p : process) : process :=
  Process (t p) (positions p) (masses p) (velocities p)
          (calls p ++ concat (replicate k worker_calls)).

(** The reduced acceleration array of a system whose positions and masses
    every one of [size] ranks holds. *)
Definition reduced_accelerations (size : nat) (x : list (vec F)) (m : list F)
    : result (list (vec F)) :=
  locals <- evaluate size 0 (replicate size (Process zero (Some x) (Some m) None [])) ;;
  reduce locals.
End Program.

Arguments process F : clear implicits.
Arguments world F : clear implicits.
Arguments outcome F : clear implicits.

(** ** The striped partition *)

(** The ownership rule of the design document: index [i] belongs to worker
    [i mod worker_count]. *)
Definition owns (index rank worker_count : nat) : bool :=
  bool_decide (index mod worker_count = rank).

(** The indices below [N] that [rank] owns. *)
Definition owned (N worker_count rank : nat) : gset nat :=
  list_to_set (filter (fun index => owns index rank worker_count) (seq 0 N)).

(** The global indices that the write-back loop of a rank with [n] local
    rows assigns: [rank + i * size] for [i] in [range(n)]. *)
Definition written (rank size n : nat) : list nat :=
  (fun i => rank + i * size) <$> seq 0 n.


(** ** Exact arithmetic *)

#[global] Instance R_inhabited : Inhabited R := populate 0%R.

(** Lines 31-37 in exact arithmetic, where the divisions are total: what
    the pair of the row at [local_i] with the body at [pj] adds to the
    accumulator. *)
Definition pair_term (local_i pj : vec R) (mass : R) : vec R :=
  let dx := (fst pj - fst local_i)%R in
  let dy := (snd pj - snd local_i)%R in
  let distance := R_sqrt.sqrt (dx * dx + dy * dy) in
  if decide (0 < distance)%R
  then (G * mass / (distance * distance) * dx / distance,
        G * mass / (distance * distance) * dy / distance)%R
  else (0, 0)%R.

(** Lines 29-37 in exact arithmetic: the sum of the pair terms of the local
    row [i] over the pairs [(j, mass)], [j] counted from the given index,
    that pass the test [i != j]. *)
Fixpoint pull (positions : list (vec R)) (local_i : vec R) (i j : nat)
    (masses : list R) : vec R :=
  match masses with
  | [] => (0, 0)%R
  | mass :: rest =>
      let s := pull positions local_i i (S j) rest in
      if decide (i = j) then s
      else match positions !! j with
           | Some pj => vadd (pair_term local_i pj mass) s
           | None => s
           end
  end.

(** *** The acceleration of the design document

    [A[i] = sum over j distinct from i of G M[j] (P[j] - P[i]) / |P[j] - P[i]|^3],
    zero-separation pairs skipped. *)

Definition separation (pi pj : vec R) : R :=
  R_sqrt.sqrt ((fst pj - fst pi) ^ 2 + (snd pj - snd pi) ^ 2).

Definition newton_term (pi pj : vec R) (mj : R) : vec R :=
  if decide (separation pi pj = 0)%R then (0, 0)%R
  else (G * mj * (fst pj - fst pi) / separation pi pj ^ 3,
        G * mj * (snd pj - snd pi) / separation pi pj ^ 3)%R.

(** The sum over the bodies [(P[j], M[j])], [j] counted from the given
    index, with [j] distinct from [i]. *)
Fixpoint newton_sum (pi : vec R) (i j : nat) (bodies : list (vec R * R)) : vec R :=
  match bodies with
  | [] => (0, 0)%R
  | (pj, mj) :: rest =>
      if decide (j = i) then newton_sum pi i (S j) rest
      else vadd (newton_term pi pj mj) (newton_sum pi i (S j) rest)
  end.

Definition newton_acceleration (P : list (vec R)) (M : list R) (i : nat) : vec R :=
  match P !! i with
  | Some pi => newton_sum pi i 0 (zip P M)
  | None => (0, 0)%R
  end.

(** *** Small systems on which the program is evaluated *)

(** Two unit masses one unit apart. *)
Definition two_bodies : list (vec R) := [(0, 0); (1, 0)]%R.
Definition two_masses : list R := [1; 1]%R.

(** Two coincident unit masses and a third unit mass one unit away. *)
Definition three_bodies : list (vec R) := [(0, 0); (0, 0); (1, 0)]%R.
Definition three_masses : list R := [1; 1; 1]%R.

(** Three unit masses stacked at the origin, the third one launched along
    the x axis at 60 units of length per unit of time. *)
Definition stacked_bodies : list (vec R) := [(0, 0); (0, 0); (0, 0)]%R.
Definition launch : list (vec R) := [(0, 0); (0, 0); (60, 0)]%R.

(** The two-rank world after start-up on the stacked system. *)
Definition stacked_world : world R :=
  replicate 2 (Process 0%R (Some stacked_bodies) (Some three_masses)
                       (Some launch) startup_calls).

(** ** binary64 arithmetic

    The same systems with binary64 coordinates, on which the model runs by
    computation. *)

Definition two_bodies64 : list (vec float) := [(0, 0); (1, 0)]%float.
Definition two_masses64 : list float := [1; 1]%float.
Definition three_bodies64 : list (vec float) := [(0, 0); (0, 0); (1, 0)]%float.
Definition three_masses64 : list float := [1; 1; 1]%float.
Definition stacked_bodies64 : list (vec float) := [(0, 0); (0, 0); (0, 0)]%float.
Definition launch64 : list (vec float) := [(0, 0); (0, 0); (60, 0)]%float.

(** Neither an infinity nor a NaN. *)
Definition finite (x : float) : bool := PrimFloat.ltb (PrimFloat.abs x) infinity.
Definition all_finite (a : list (vec float)) : bool :=
  forallb (fun v => finite (fst v) && finite (snd v)) a.

(** ** Further definitions for the properties of the code *)

(** Every position moved by the same vector [c]. *)
Definition shift (c : vec R) (positions : list (vec R)) : list (vec R) :=
  (fun p => vadd p c) <$> positions.

Section Frames.
Context {F : Type} `{Scalar F}.

(** Line 133: [frame_count += 1], inside [if comm.rank == 0]; [frame_count]
    is a module global (line 46), one per rank, rank [r] at index [r]. *)
Definition count_frame (frame_counts : list nat) : list nat :=
  match frame_counts with
  | root :: others => S root :: others
  | [] => []
  end.

(** [main_loop] with the frame counters: every pass of the loop body ends
    with [count_frame]. *)
Fixpoint main_loop_frames (fuel : nat) (t_end dt : F) (w : world F)
    (frame_counts : list nat) : outcome F * list nat :=
  if forallb (in_loop t_end) w then
    match fuel with
    | O => (Running w, frame_counts)
    | S fuel' =>
        match loop_body dt w with
        | Ok w' => main_loop_frames fuel' t_end dt w' (count_frame frame_counts)
        | Raise e => (Failed e, frame_counts)
        end
    end
  else if existsb (in_loop t_end) w then (Hung w, frame_counts)
  else (Finished w, frame_counts).

(** Lines 135-144, [on_close]: rank 0 divides [frame_count] by the time
    since [start_time] and prints the quotient (the model returns the number,
    not its two-decimal rendering); every rank then calls [exit()].  The
    clock readings are parameters.  [frame_count / duration] is a division
    of Python numbers, which raises [ZeroDivisionError] on a zero divisor. *)
Definition on_close (rank frame_count : nat) (start_time end_time : F)
    : result (option F) :=
  if decide (rank = 0) then
    let duration := sub end_time start_time in
    avg_fps <- div (of_Z (Z.of_nat frame_count)) duration ;;
    Ok (Some avg_fps)
  else Ok None.

(** The world an outcome carries. *)
Definition final_world (o : outcome F) : option (world F) :=
  match o with
  | Finished w | Hung w | Running w => Some w
  | Failed _ => None
  end.
End Frames.

(** The sum of mass times acceleration over the bodies. *)
Definition total_force (masses : list R) (A : list (vec R)) : vec R :=
  foldr vadd (0, 0)%R (zip_with scale masses A).

(** The sum of the Newtonian terms of the body at [pi] over all the bodies
    of a list, the body itself included (its own term is zero). *)
Definition newton_sum_all (pi : vec R) (bodies : list (vec R * R)) : vec R :=
  foldr (fun body s => vadd (newton_term pi (fst body) (snd body)) s) (0, 0)%R bodies.
Section Partition.
Context {A : Type}.
Implicit Types (l : list A) (step skip rank size i g : nat).

Lemma stride_lookup step skip l i :
  1 <= step -> stride step skip l !! i = l !! (skip + i * step).
Proof.
  intros Hstep. revert skip i.
  induction l as [|x l IH]; intros skip i; simpl.
  - by rewrite !lookup_nil.
  - destruct skip as [|k].
    + destruct i as [|i]; simpl; [done|].
      rewrite IH. replace (step + i * step) with (S (step - 1 + i * step)) by lia.
      done.
    + by rewrite IH.
Qed.

Lemma stride_length_lt step skip l i :
  1 <= step -> i < length (stride step skip l) <-> skip + i * step < length l.
Proof.
  intros Hstep.
  rewrite <- !lookup_lt_is_Some, stride_lookup by done. done.
Qed.

End Partition.

Lemma elem_of_owned N P r i : i ∈ owned N P r <-> i < N /\ i mod P = r.
Proof.
  unfold owned, owns. rewrite elem_of_list_to_set, list_elem_of_filter, elem_of_seq.
  rewrite bool_decide_spec. split; intros; intuition lia.
Qed.

Lemma elem_of_written rank size n g :
  g ∈ written rank size n <-> exists i, i < n /\ g = rank + i * size.
Proof.
  unfold written. rewrite list_elem_of_fmap. split.
  - intros (i & -> & Hi). apply elem_of_seq in Hi. exists i. split; [lia|done].
  - intros (i & Hi & ->). exists i. split; [done|]. apply elem_of_seq. lia.
Qed.

Lemma written_owned {A} (positions : list A) rank size :
  rank < size ->
  list_to_set (written rank size (length (stride size rank positions)))
  = owned (length positions) size rank.
Proof.
  intros Hr. apply set_eq. intros g.
  rewrite elem_of_list_to_set, elem_of_written, elem_of_owned. split.
  - intros (i & Hi & ->). apply stride_length_lt in Hi; [|lia]. split; [done|].
    rewrite Nat.Div0.mod_add. by apply Nat.mod_small.
  - intros [Hg Hmod]. exists (g / size).
    assert (g = rank + g / size * size) as Heq.
    { pose proof (Nat.div_mod_eq g size). lia. }
    split; [|done]. apply stride_length_lt; lia.
Qed.

Lemma owned_disjoint N P r r' : r ≠ r' -> owned N P r ## owned N P r'.
Proof.
  intros Hne. apply elem_of_disjoint. intros i Hi Hi'.
  apply elem_of_owned in Hi, Hi'. lia.
Qed.

Lemma owned_cover N P : 1 <= P -> ⋃ (owned N P <$> seq 0 P) = set_seq 0 N.
Proof.
  intros HP. apply set_eq. intros i.
  rewrite elem_of_union_list, elem_of_set_seq. split.
  - intros (X & HX & Hi). apply list_elem_of_fmap in HX as (r & -> & _).
    apply elem_of_owned in Hi. lia.
  - intros [_ Hi]. exists (owned N P (i mod P)). split.
    + apply list_elem_of_fmap. exists (i mod P). split; [done|].
      apply elem_of_seq. pose proof (Nat.mod_upper_bound i P). lia.
    + apply elem_of_owned. lia.
Qed.

(** The write-back loop stores local row [k] at global index
    [rank + (i + k) * size] and leaves every other row as it was. *)
Lemma write_back_spec {F} rank size (locals : list (vec F)) :
  1 <= size ->
  forall i (accelerations : list (vec F)),
    (forall k, k < length locals -> rank + (i + k) * size < length accelerations) ->
    exists A,
      write_back rank size i locals accelerations = Ok A /\
      length A = length accelerations /\
      (forall k, k < length locals -> A !! (rank + (i + k) * size) = locals !! k) /\
      (forall g, (forall k, k < length locals -> g ≠ rank + (i + k) * size) ->
                 A !! g = accelerations !! g).
Proof.
  intros Hsize. induction locals as [|a rest IH]; intros i accs Hin; simpl.
  - exists accs. split; [done|]. split; [done|].
    split; [simpl; intros; lia|done].
  - pose proof (Hin 0 ltac:(simpl; lia)) as H0. rewrite Nat.add_0_r in H0.
    rewrite decide_True by done.
    destruct (IH (S i) (<[rank + i * size:=a]> accs)) as (A & HA & Hlen & Hown & Hother).
    { intros k Hk. rewrite length_insert.
      specialize (Hin (S k) ltac:(simpl; lia)).
      by replace (S i + k) with (i + S k) by lia. }
    exists A. rewrite length_insert in Hlen. split; [done|]. split; [done|]. split.
    + intros [|k] Hk; simpl in *.
      * rewrite Nat.add_0_r, Hother.
        -- by apply list_lookup_insert_eq.
        -- intros k _. nia.
      * replace (i + S k) with (S i + k) by lia. apply Hown. lia.
    + intros g Hg. rewrite Hother.
      * apply list_lookup_insert_ne. specialize (Hg 0 ltac:(simpl; lia)).
        rewrite Nat.add_0_r in Hg. done.
      * intros k Hk. replace (S i + k) with (i + S k) by lia. apply Hg. simpl. lia.
Qed.

(** The write-back of a rank into a fresh array: the owned rows receive the
    local rows, the other rows keep their initial value. *)
Lemma write_back_striped {F} (positions locals : list (vec F)) (z : vec F) rank size :
  rank < size ->
  length locals = length (stride size rank positions) ->
  exists A,
    write_back rank size 0 locals (replicate (length positions) z) = Ok A /\
    length A = length positions /\
    forall g, g < length positions ->
      A !! g = if owns g rank size then locals !! (g / size) else Some z.
Proof.
  intros Hr Hlen. assert (1 <= size) as HP by lia.
  destruct (write_back_spec rank size locals HP 0 (replicate (length positions) z))
    as (A & HA & HlenA & Hown & Hother).
  { intros k Hk. rewrite length_replicate. rewrite Hlen in Hk.
    by apply stride_length_lt in Hk. }
  rewrite length_replicate in HlenA.
  exists A. split; [done|]. split; [done|]. intros g Hg.
  unfold owns. case_bool_decide as Hmod.
  - assert (g = rank + (0 + g / size) * size) as Heq.
    { pose proof (Nat.div_mod_eq g size). lia. }
    rewrite Heq at 1. apply Hown. rewrite Hlen.
    apply stride_length_lt; lia.
  - rewrite Hother.
    + by apply lookup_replicate_2.
    + intros k _ ->. apply Hmod. simpl.
      rewrite Nat.Div0.mod_add. by apply Nat.mod_small.
Qed.

(** C5. For every [N] and every worker count [P >= 1] the owned index sets
    of the ranks are pairwise disjoint, their union over the ranks below [P]
    is {0..N-1}, and every index below [N] has exactly one owner; the slice
    [positions[rank::size]] holds at local index [i] the row of global index
    [rank + i * size], the indices the write-back assigns are the owned ones,
    and the write-back stores local row [g / P] at every owned [g] and
    leaves the rows of the other indices untouched. *)
Theorem striped_partition (N P : nat) :
  1 <= P ->
  (forall r r', r ≠ r' -> owned N P r ## owned N P r') /\
  ⋃ (owned N P <$> seq 0 P) = set_seq 0 N /\
  (forall i, i < N ->
     exists r, r < P /\ forall r', i ∈ owned N P r' <-> r' = r) /\
  (forall (A : Type) (positions : list A) (rank : nat),
     length positions = N -> rank < P ->
     (forall i, stride P rank positions !! i = positions !! (rank + i * P)) /\
     list_to_set (written rank P (length (stride P rank positions)))
     = owned N P rank) /\
  (forall (F : Type) (positions locals : list (vec F)) (z : vec F) (rank : nat),
     length positions = N -> rank < P ->
     length locals = length (stride P rank positions) ->
     exists A,
       write_back rank P 0 locals (replicate N z) = Ok A /\
       length A = N /\
       forall g, g < N ->
         A !! g = if owns g rank P then locals !! (g / P) else Some z).
Proof.
  intros HP. split; [apply owned_disjoint|]. split; [by apply owned_cover|].
  split; [|split].
  - intros i Hi. exists (i mod P). split.
    + apply Nat.mod_upper_bound. lia.
    + intros r'. rewrite elem_of_owned. intuition lia.
  - intros A positions rank <- Hr. split.
    + intros i. by apply stride_lookup.
    + by apply written_owned.
  - intros F positions locals z rank <- Hr Hlen. by apply write_back_striped.
Qed.

(** An instance of [striped_partition]: seven bodies on three workers. *)
Lemma striped_partition_witness :
  1 <= 3 /\ owned 7 3 0 ## owned 7 3 1 /\
  ⋃ (owned 7 3 <$> seq 0 3) = set_seq 0 7.
Proof.
  split; [lia|].
  pose proof (striped_partition 7 3 ltac:(lia)) as (Hdisj & Hcover & _).
  split; [apply Hdisj; lia|exact Hcover].
Defined.

(** ** The kernel in exact arithmetic *)

Section ExactKernel.
Local Open Scope R_scope.
Implicit Types (positions : list (vec R)) (masses : list R).
Implicit Types (local_i pj acc : vec R) (mass : R).

Ltac unfold_ops :=
  cbn [add sub mul quotient root eqb ltb leb of_Z half R_scalar zero one vzero].

Lemma vec_eq (a b c d : R) : a = c -> b = d -> (a, b) = (c, d).
Proof. by intros -> ->. Qed.

Lemma vadd_zero_r (v : vec R) : vadd v (0, 0) = v.
Proof. destruct v. unfold vadd; simpl. apply vec_eq; lra. Qed.

Lemma vadd_zero_l (v : vec R) : vadd (0, 0) v = v.
Proof. destruct v. unfold vadd; simpl. apply vec_eq; lra. Qed.

Lemma vadd_assoc (u v w : vec R) : vadd (vadd u v) w = vadd u (vadd v w).
Proof. destruct u, v, w. unfold vadd; simpl. apply vec_eq; lra. Qed.

Lemma G_pos : 0 < G.
Proof. simpl. lra. Qed.

Lemma div_nonzero (x y : R) : y <> 0 -> div x y = Ok (x / y).
Proof. intros Hy. unfold div. unfold_ops. by rewrite bool_decide_false. Qed.

Lemma div_faults_only_at_zero (x y : R) :
  div x y = Raise ZeroDivisionError <-> y = 0.
Proof.
  unfold div. unfold_ops. case_bool_decide; split; intros; done.
Qed.

(** The pair of a body with itself has zero separation and adds nothing. *)
Lemma pair_term_self local_i mass : pair_term local_i local_i mass = (0, 0).
Proof.
  unfold pair_term. rewrite decide_False; [done|].
  replace ((local_i.1 - local_i.1) * (local_i.1 - local_i.1) +
           (local_i.2 - local_i.2) * (local_i.2 - local_i.2)) with 0 by lra.
  rewrite sqrt_0. lra.
Qed.

(** Both divisions of the loop body run under [distance > 0] and none
    has a zero divisor. *)
Lemma pair_step_R positions local_i i j mass acc :
  pair_step positions local_i i j mass acc =
  if decide (i = j) then Ok acc
  else pj <- row positions j ;; Ok (vadd acc (pair_term local_i pj mass)).
Proof.
  unfold pair_step. destruct (decide (i = j)); [done|].
  destruct (row positions j) as [pj|e]; [|done].
  cbn [bind]. unfold pair_term. unfold_ops.
  set (d := sqrt _). case_bool_decide as Hd.
  - rewrite decide_True by done.
    rewrite div_nonzero by nra. cbn [bind].
    rewrite !div_nonzero by lra. cbn [bind].
    done.
  - rewrite decide_False by done. by rewrite vadd_zero_r.
Qed.

Lemma inner_loop_R positions local_i i masses :
  forall j acc,
    (j + length masses <= length positions)%nat ->
    inner_loop positions local_i i j masses acc
    = Ok (vadd acc (pull positions local_i i j masses)).
Proof.
  induction masses as [|mass rest IH]; intros j acc Hlen; simpl in *.
  - by rewrite vadd_zero_r.
  - rewrite pair_step_R. destruct (decide (i = j)) as [->|Hij].
    + cbn [bind]. rewrite IH by lia. done.
    + unfold row. destruct (positions !! j) as [pj|] eqn:Hj.
      * cbn [bind]. rewrite IH by lia. by rewrite vadd_assoc.
      * apply lookup_ge_None in Hj. lia.
Qed.

(** The inner loop never divides by zero, whatever the arrays. *)
Lemma inner_loop_no_division_fault positions local_i i masses :
  forall j acc,
    inner_loop positions local_i i j masses acc ≠ Raise ZeroDivisionError.
Proof.
  induction masses as [|mass rest IH]; intros j acc; simpl; [done|].
  rewrite pair_step_R. destruct (decide (i = j)); [apply IH|].
  unfold row. destruct (positions !! j); simpl; [apply IH|done].
Qed.

Lemma outer_loop_R positions masses local_positions :
  (length masses <= length positions)%nat ->
  forall i,
    outer_loop positions masses i local_positions
    = Ok (imap (fun k local_i => pull positions local_i (i + k)%nat 0 masses)
               local_positions).
Proof.
  intros Hlen. induction local_positions as [|local_i rest IH]; intros i; simpl.
  - done.
  - rewrite inner_loop_R by (simpl; lia). cbn [bind].
    rewrite IH. cbn [bind]. unfold vzero, zero. unfold_ops.
    rewrite vadd_zero_l, Nat.add_0_r.
    do 2 f_equal. apply imap_ext. intros k x _. simpl. f_equal. lia.
Qed.

Lemma outer_loop_no_division_fault positions masses local_positions :
  forall i, outer_loop positions masses i local_positions ≠ Raise ZeroDivisionError.
Proof.
  induction local_positions as [|local_i rest IH]; intros i; simpl; [done|].
  pose proof (inner_loop_no_division_fault positions local_i i masses 0 vzero).
  destruct (inner_loop _ _ _ _ _ _) as [a|e]; simpl; [|congruence].
  specialize (IH (S i)).
  destruct (outer_loop _ _ _ _) as [r|e]; simpl; [done|congruence].
Qed.

Lemma write_back_no_division_fault (rank size : nat) (locals : list (vec R)) :
  forall i accs, write_back rank size i locals accs ≠ Raise ZeroDivisionError.
Proof.
  induction locals as [|a rest IH]; intros i accs; simpl; [done|].
  case_decide; [apply IH|done].
Qed.

Lemma calculate_accelerations_no_division_fault (rank size : nat) positions masses :
  calculate_accelerations rank size positions masses ≠ Raise ZeroDivisionError.
Proof.
  unfold calculate_accelerations, slice_from. case_decide; [done|]. cbn [bind].
  pose proof (outer_loop_no_division_fault positions masses
                (stride size rank positions) 0%nat).
  destruct (outer_loop _ _ _ _) as [a|e]; cbn [bind]; [|congruence].
  apply write_back_no_division_fault.
Qed.

Lemma calculate_accelerations_total (rank size : nat) positions masses :
  (1 <= size)%nat -> (length masses <= length positions)%nat ->
  exists A, calculate_accelerations rank size positions masses = Ok A /\
            length A = length positions.
Proof.
  intros Hsize Hlen. unfold calculate_accelerations, slice_from.
  rewrite decide_False by lia. cbn [bind].
  rewrite outer_loop_R by done. cbn [bind].
  edestruct (write_back_spec (F:=R) rank size) as (A & HA & HlenA & _); [done| |].
  2:{ exists A. split; [exact HA|]. by rewrite HlenA, length_replicate. }
  intros k Hk. rewrite length_imap in Hk. rewrite length_replicate.
  by apply stride_length_lt in Hk.
Qed.

(** What a rank returns: at an owned index [g] the sum of the pair terms
    over the pairs [(j, mass)] with [j] distinct from the local index
    [g / size]; zero elsewhere. *)
Lemma calculate_accelerations_R (rank size : nat) positions masses :
  (rank < size)%nat -> (length masses <= length positions)%nat ->
  exists A,
    calculate_accelerations rank size positions masses = Ok A /\
    length A = length positions /\
    forall g pg, positions !! g = Some pg ->
      A !! g = Some (if owns g rank size
                     then pull positions pg (g / size) 0 masses
                     else (0, 0)).
Proof.
  intros Hr Hlen. unfold calculate_accelerations, slice_from.
  rewrite decide_False by lia. cbn [bind].
  rewrite outer_loop_R by done. cbn [bind].
  edestruct (write_back_striped (F:=R) positions) as (A & HA & HlenA & Hget);
    [exact Hr| |].
  2:{ exists A. split; [exact HA|]. split; [done|].
      intros g pg Hg. rewrite Hget by (by eapply lookup_lt_Some).
      unfold owns. case_bool_decide as Hmod; [|done].
      rewrite list_lookup_imap, stride_lookup by lia.
      replace (rank + g / size * size)%nat with g
        by (pose proof (Nat.div_mod_eq g size); lia).
      rewrite Hg. done. }
  by rewrite length_imap.
Qed.

(** *** The kernel against the formula of the design document *)

Lemma separation_eq pi pj :
  separation pi pj
  = sqrt ((pj.1 - pi.1) * (pj.1 - pi.1) + (pj.2 - pi.2) * (pj.2 - pi.2)).
Proof. unfold separation. f_equal. ring. Qed.

Lemma pair_term_newton local_i pj mass :
  pair_term local_i pj mass = newton_term local_i pj mass.
Proof.
  unfold pair_term, newton_term. rewrite separation_eq.
  set (dx := pj.1 - local_i.1). set (dy := pj.2 - local_i.2).
  pose proof (sqrt_pos (dx * dx + dy * dy)) as Hpos.
  set (d := sqrt _) in *.
  destruct (decide (0 < d)) as [Hd|Hd].
  - rewrite decide_False by lra. apply vec_eq; field; lra.
  - rewrite decide_True by lra. done.
Qed.

Lemma pull_newton_sum positions pi i ms :
  forall ps j,
    length ps = length ms ->
    (forall k, positions !! (j + k)%nat = ps !! k) ->
    pull positions pi i j ms = newton_sum pi i j (zip ps ms).
Proof.
  induction ms as [|m ms IH]; intros ps j Hlen Hps.
  - by destruct ps.
  - destruct ps as [|p ps]; [done|]. simpl in *.
    assert (pull positions pi i (S j) ms = newton_sum pi i (S j) (zip ps ms)) as ->.
    { apply IH; [lia|]. intros k. specialize (Hps (S k)).
      by replace (S j + k)%nat with (j + S k)%nat by lia. }
    specialize (Hps 0%nat). rewrite Nat.add_0_r in Hps. simpl in Hps.
    rewrite Hps. destruct (decide (i = j)) as [->|Hij].
    + by rewrite decide_True.
    + rewrite decide_False by done. by rewrite pair_term_newton.
Qed.

(** With one worker the kernel computes the acceleration of the design
    document. *)
Lemma one_worker_newton positions masses :
  length masses = length positions ->
  exists A,
    calculate_accelerations 0 1 positions masses = Ok A /\
    length A = length positions /\
    forall g, (g < length positions)%nat ->
      A !! g = Some (newton_acceleration positions masses g).
Proof.
  intros Hlen.
  destruct (calculate_accelerations_R 0 1 positions masses) as (A & HA & HlenA & Hget);
    [lia|lia|].
  exists A. split; [done|]. split; [done|]. intros g Hg.
  destruct (lookup_lt_is_Some_2 positions g Hg) as [pg Hpg].
  rewrite (Hget g pg Hpg). unfold owns, newton_acceleration.
  rewrite Nat.mod_1_r, bool_decide_true by done.
  rewrite Hpg, Nat.div_1_r. f_equal. by apply pull_newton_sum.
Qed.

(** *** Pairs on a horizontal line *)

Lemma pair_term_right (x1 x2 y mass : R) :
  x1 < x2 ->
  pair_term (x1, y) (x2, y) mass = (G * mass / ((x2 - x1) * (x2 - x1)), 0).
Proof.
  intros Hlt. unfold pair_term. cbn [fst snd].
  replace ((x2 - x1) * (x2 - x1) + (y - y) * (y - y)) with (Rsqr (x2 - x1))
    by (unfold Rsqr; ring).
  rewrite sqrt_Rsqr by lra. rewrite decide_True by lra.
  apply vec_eq; field; lra.
Qed.

Lemma pair_term_left (x1 x2 y mass : R) :
  x2 < x1 ->
  pair_term (x1, y) (x2, y) mass = (- (G * mass / ((x1 - x2) * (x1 - x2))), 0).
Proof.
  intros Hlt. unfold pair_term. cbn [fst snd].
  replace ((x2 - x1) * (x2 - x1) + (y - y) * (y - y)) with (Rsqr (x1 - x2))
    by (unfold Rsqr; ring).
  rewrite sqrt_Rsqr by lra. rewrite decide_True by lra.
  apply vec_eq; field; lra.
Qed.

(** The arithmetic of one pair obeys Newton's third law. *)
Lemma pair_term_antisymmetric (pi pj : vec R) (mi mj : R) :
  scale mi (pair_term pi pj mj) = scale (- mj) (pair_term pj pi mi).
Proof.
  unfold pair_term, scale.
  replace ((pi.1 - pj.1) * (pi.1 - pj.1) + (pi.2 - pj.2) * (pi.2 - pj.2))
    with ((pj.1 - pi.1) * (pj.1 - pi.1) + (pj.2 - pi.2) * (pj.2 - pi.2)) by ring.
  set (d := sqrt _). destruct (decide (0 < d)); cbn [fst snd mul R_scalar].
  - apply vec_eq; field; lra.
  - apply vec_eq; ring.
Qed.

Lemma list_two {A} (l : list A) (a b : A) :
  length l = 2%nat -> l !! 0%nat = Some a -> l !! 1%nat = Some b -> l = [a; b].
Proof.
  destruct l as [|x [|y [|z l]]]; simpl; intros Hlen Ha Hb; try done.
  by simplify_eq.
Qed.

Lemma list_three {A} (l : list A) (a b c : A) :
  length l = 3%nat -> l !! 0%nat = Some a -> l !! 1%nat = Some b ->
  l !! 2%nat = Some c -> l = [a; b; c].
Proof.
  destruct l as [|x [|y [|z [|u l]]]]; simpl; intros Hlen Ha Hb Hc; try done.
  by simplify_eq.
Qed.

End ExactKernel.

(** *** The kernel on the small systems *)

Ltac pair_terms :=
  repeat first [ rewrite pair_term_self
               | rewrite pair_term_right by lra
               | rewrite pair_term_left by lra ];
  unfold vadd; cbn [fst snd add G R_scalar]; apply vec_eq; lra.

Ltac kernel_rows Hget :=
  erewrite Hget by reflexivity; f_equal; simpl; try done; pair_terms.

Ltac arrays_eq := repeat first [ apply vec_eq; simpl; lra | f_equal ].

Ltac reduce_rows :=
  unfold reduced_accelerations;
  cbn [replicate evaluate array positions masses bind length].

Section SmallSystems.
Local Open Scope R_scope.
Implicit Types (positions : list (vec R)) (masses : list R).

Lemma two_bodies_one_worker :
  calculate_accelerations 0 1 two_bodies two_masses = Ok [(G, 0); (- G, 0)].
Proof.
  destruct (calculate_accelerations_R 0 1 two_bodies two_masses)
    as (A & -> & Hlen & Hget); [lia|simpl; lia|].
  f_equal. apply list_two; [exact Hlen|kernel_rows Hget..].
Qed.

Lemma two_bodies_rank0_of_2 :
  calculate_accelerations 0 2 two_bodies two_masses = Ok [(G, 0); (0, 0)].
Proof.
  destruct (calculate_accelerations_R 0 2 two_bodies two_masses)
    as (A & -> & Hlen & Hget); [lia|simpl; lia|].
  f_equal. apply list_two; [exact Hlen|kernel_rows Hget..].
Qed.

Lemma two_bodies_rank1_of_2 :
  calculate_accelerations 1 2 two_bodies two_masses = Ok [(0, 0); (0, 0)].
Proof.
  destruct (calculate_accelerations_R 1 2 two_bodies two_masses)
    as (A & -> & Hlen & Hget); [lia|simpl; lia|].
  f_equal. apply list_two; [exact Hlen|kernel_rows Hget..].
Qed.

Lemma three_bodies_one_worker :
  calculate_accelerations 0 1 three_bodies three_masses
  = Ok [(G, 0); (G, 0); (- (2 * G), 0)].
Proof.
  destruct (calculate_accelerations_R 0 1 three_bodies three_masses)
    as (A & -> & Hlen & Hget); [lia|simpl; lia|].
  f_equal. apply list_three; [exact Hlen|kernel_rows Hget..].
Qed.

Lemma three_bodies_rank0_of_2 :
  calculate_accelerations 0 2 three_bodies three_masses
  = Ok [(G, 0); (0, 0); (- G, 0)].
Proof.
  destruct (calculate_accelerations_R 0 2 three_bodies three_masses)
    as (A & -> & Hlen & Hget); [lia|simpl; lia|].
  f_equal. apply list_three; [exact Hlen|kernel_rows Hget..].
Qed.

Lemma three_bodies_rank1_of_2 :
  calculate_accelerations 1 2 three_bodies three_masses
  = Ok [(0, 0); (G, 0); (0, 0)].
Proof.
  destruct (calculate_accelerations_R 1 2 three_bodies three_masses)
    as (A & -> & Hlen & Hget); [lia|simpl; lia|].
  f_equal. apply list_three; [exact Hlen|kernel_rows Hget..].
Qed.

Lemma two_bodies_reduced_1 :
  reduced_accelerations 1 two_bodies two_masses = Ok [(G, 0); (- G, 0)].
Proof. reduce_rows. rewrite two_bodies_one_worker. done. Qed.

Lemma two_bodies_reduced_2 :
  reduced_accelerations 2 two_bodies two_masses = Ok [(G, 0); (0, 0)].
Proof.
  reduce_rows. rewrite two_bodies_rank0_of_2, two_bodies_rank1_of_2.
  simpl. arrays_eq.
Qed.

Lemma three_bodies_reduced_1 :
  reduced_accelerations 1 three_bodies three_masses
  = Ok [(G, 0); (G, 0); (- (2 * G), 0)].
Proof. reduce_rows. rewrite three_bodies_one_worker. done. Qed.

Lemma three_bodies_reduced_2 :
  reduced_accelerations 2 three_bodies three_masses
  = Ok [(G, 0); (G, 0); (- G, 0)].
Proof.
  reduce_rows. rewrite three_bodies_rank0_of_2, three_bodies_rank1_of_2.
  simpl. arrays_eq.
Qed.

Lemma newton_two_bodies_1 : newton_acceleration two_bodies two_masses 1 = (- G, 0).
Proof.
  unfold newton_acceleration. simpl. rewrite <- pair_term_newton. pair_terms.
Qed.

Lemma newton_three_bodies_2 :
  newton_acceleration three_bodies three_masses 2 = (- (2 * G), 0).
Proof.
  unfold newton_acceleration. simpl. rewrite <- !pair_term_newton. pair_terms.
Qed.

Lemma minus_G_nonzero : (- G, 0) <> (0, 0).
Proof. pose proof G_pos. intros [=]. lra. Qed.

(** C1 (failing input).  Two unit masses at (0, 0) and (1, 0), two workers:
    rank 1 owns body 1, its only local row.  The pair with body 0 is skipped
    by [i != j] (local index 0 against global index 0), the pair with body 1
    has zero separation, and the rank returns a zero row for body 1, where
    the formula gives (-G, 0). *)
Theorem owned_row_skips_body_at_local_index :
  owns 1 1 2 = true /\
  calculate_accelerations 1 2 two_bodies two_masses = Ok [(0, 0); (0, 0)] /\
  newton_acceleration two_bodies two_masses 1 = (- G, 0) /\
  newton_acceleration two_bodies two_masses 1 <> (0, 0).
Proof.
  split; [done|]. split; [apply two_bodies_rank1_of_2|].
  split; [apply newton_two_bodies_1|].
  rewrite newton_two_bodies_1. apply minus_G_nonzero.
Qed.

(** C6 (failing input).  For the same two bodies the reduced array is
    [(G, 0); (-G, 0)] with one worker and [(G, 0); (0, 0)] with two. *)
Theorem reduced_array_depends_on_worker_count :
  reduced_accelerations 1 two_bodies two_masses = Ok [(G, 0); (- G, 0)] /\
  reduced_accelerations 2 two_bodies two_masses = Ok [(G, 0); (0, 0)] /\
  reduced_accelerations 1 two_bodies two_masses
  <> reduced_accelerations 2 two_bodies two_masses.
Proof.
  split; [apply two_bodies_reduced_1|]. split; [apply two_bodies_reduced_2|].
  rewrite two_bodies_reduced_1, two_bodies_reduced_2.
  intros [=]. pose proof G_pos. lra.
Qed.

(** C7 (failing input).  Two workers, the same two bodies.  Rank 0 holds
    body 0 as local row 0 and adds (G, 0) for the pair with body 1; rank 1
    holds body 1 as local row 0 and skips the pair with body 0, whose global
    index equals the local index.  The two contributions are (G, 0) and
    (0, 0): mass times contribution is not opposite. *)
Theorem third_law_fails_on_two_workers :
  stride 2 0 two_bodies = [(0, 0)] /\
  stride 2 1 two_bodies = [(1, 0)] /\
  pair_step two_bodies (0, 0) 0 1 1 (0, 0) = Ok (G, 0) /\
  pair_step two_bodies (1, 0) 0 0 1 (0, 0) = Ok (0, 0) /\
  reduced_accelerations 2 two_bodies two_masses = Ok [(G, 0); (0, 0)] /\
  scale 1 (G, 0) <> scale (- 1) (0, 0).
Proof.
  split; [done|]. split; [done|]. split; [|split; [|split]].
  - rewrite pair_step_R. simpl. f_equal. pair_terms.
  - rewrite pair_step_R. done.
  - apply two_bodies_reduced_2.
  - unfold scale. cbn [fst snd mul R_scalar]. intros [=]. pose proof G_pos. lra.
Qed.

(** C9 (failing input).  Bodies 0 and 1 coincide at (0, 0), body 2 is at
    (1, 0), all of unit mass.  With two workers body 2 is local row 1 of
    rank 0, the pair with body 1 is skipped by [i != j], and the reduced
    acceleration of body 2 is (-G, 0): only body 0 pulls it.  With one
    worker, and by the formula, it is (-2G, 0). *)
Theorem coincident_body_lost_for_third_body :
  reduced_accelerations 2 three_bodies three_masses
  = Ok [(G, 0); (G, 0); (- G, 0)] /\
  reduced_accelerations 1 three_bodies three_masses
  = Ok [(G, 0); (G, 0); (- (2 * G), 0)] /\
  newton_acceleration three_bodies three_masses 2 = (- (2 * G), 0) /\
  (- G, 0) <> (- (2 * G), 0).
Proof.
  split; [apply three_bodies_reduced_2|]. split; [apply three_bodies_reduced_1|].
  split; [apply newton_three_bodies_2|].
  intros [=]. pose proof G_pos. lra.
Qed.

(** C10. In exact arithmetic, for every rank, worker count, position array
    and mass array: the call never divides by zero; with a worker count of
    at least one and a mass array no longer than the position array it
    returns an array with one row per body; and the pair of a local row with
    its own global index [rank + i * size] has the same position on both
    sides and leaves the accumulator as it was. *)
Theorem calculate_accelerations_never_divides_by_zero
    (rank size : nat) positions masses :
  calculate_accelerations rank size positions masses ≠ Raise ZeroDivisionError /\
  ((1 <= size)%nat -> (length masses <= length positions)%nat ->
   exists A, calculate_accelerations rank size positions masses = Ok A /\
             length A = length positions) /\
  (forall i local_i mass acc,
     (1 <= size)%nat ->
     stride size rank positions !! i = Some local_i ->
     positions !! (rank + i * size)%nat = Some local_i /\
     pair_term local_i local_i mass = (0, 0) /\
     pair_step positions local_i i (rank + i * size) mass acc = Ok acc).
Proof.
  split; [apply calculate_accelerations_no_division_fault|].
  split; [apply calculate_accelerations_total|].
  intros i local_i mass acc Hsize Hi. rewrite stride_lookup in Hi by done.
  split; [done|]. split; [apply pair_term_self|].
  rewrite pair_step_R. case_decide; [done|].
  unfold row. rewrite Hi. cbn [bind]. by rewrite pair_term_self, vadd_zero_r.
Qed.

(** An instance of [calculate_accelerations_never_divides_by_zero]: rank 1
    of 2 on the three-body system, whose local row 0 is body 1. *)
Lemma calculate_accelerations_never_divides_by_zero_witness :
  (exists A, calculate_accelerations 1 2 three_bodies three_masses = Ok A /\
             length A = 3%nat) /\
  pair_step three_bodies (0, 0) 0 1 1 (0, 0) = Ok (0, 0).
Proof.
  pose proof (calculate_accelerations_never_divides_by_zero
                1 2 three_bodies three_masses) as (_ & Htotal & Hself).
  split.
  - apply Htotal; simpl; lia.
  - apply (Hself 0%nat (0, 0) 1 (0, 0)); [lia|reflexivity].
Defined.
End SmallSystems.

(** ** The program in exact arithmetic *)

Section ExactProgram.
Implicit Types (w others : world R) (p root : process R).
Implicit Types (x v a : list (vec R)).

Lemma array_add_same_length x y :
  length x = length y -> array_add x y = Ok (zip_with vadd x y).
Proof. intros Hlen. unfold array_add. by rewrite decide_True. Qed.

Lemma length_kicked (dt : R) a v N :
  length a = N -> length v = N -> length (kicked dt a v) = N.
Proof.
  intros Ha Hv. unfold kicked. rewrite length_zip_with, length_fmap. lia.
Qed.

Lemma length_drifted (dt : R) v x N :
  length v = N -> length x = N -> length (drifted dt v x) = N.
Proof.
  intros Hv Hx. unfold drifted. rewrite length_zip_with, length_fmap. lia.
Qed.

Lemma MPI_SUM_total N (bufs : list (list (vec R))) :
  Forall (fun b => length b = N) bufs ->
  forall acc, length acc = N ->
    exists s, MPI_SUM acc bufs = Ok s /\ length s = N.
Proof.
  induction 1 as [|b bufs Hb _ IH]; intros acc Hacc; simpl.
  - by exists acc.
  - rewrite array_add_same_length by lia. cbn [bind].
    apply IH. rewrite length_zip_with. lia.
Qed.

Lemma evaluate_total N size w :
  1 <= size -> Forall (holds N) w ->
  forall rank, exists locals,
    evaluate size rank w = Ok locals /\
    length locals = length w /\ Forall (fun b => length b = N) locals.
Proof.
  intros Hsize. induction 1 as [|p w Hp _ IH]; intros rank; simpl.
  - by exists [].
  - unfold holds in Hp.
    destruct (positions p) as [x|]; [|done].
    destruct (masses p) as [m|]; [|done].
    destruct (velocities p) as [v|]; [|done].
    destruct Hp as (Hx & Hm & Hv). cbn [array bind].
    destruct (calculate_accelerations_total rank size x m) as (A & -> & HA); [done|lia|].
    destruct (IH (S rank)) as (locals & -> & Hlen & Hall). cbn [bind].
    exists (A :: locals). split; [done|]. split; [simpl; lia|].
    constructor; [lia|done].
Qed.

Lemma evaluate_ext size w w' :
  Forall2 (fun p p' => positions p = positions p' /\ masses p = masses p') w w' ->
  forall rank, evaluate size rank w = evaluate size rank w'.
Proof.
  induction 1 as [|p p' w w' [Hx Hm] _ IH]; intros rank; simpl; [done|].
  by rewrite Hx, Hm, IH.
Qed.

Lemma reduce_accelerations_total N w :
  w <> [] -> Forall (holds N) w ->
  exists a, reduce_accelerations w = Ok (a, call (Reduce Accelerations) <$> w) /\
            length a = N.
Proof.
  intros Hne Hw. unfold reduce_accelerations.
  destruct (evaluate_total N (length w) w ltac:(destruct w; [done|simpl; lia]) Hw 0)
    as (locals & -> & Hlen & Hall).
  cbn [bind]. destruct locals as [|b locals].
  { destruct w; done. }
  apply Forall_cons in Hall as [Hb Hall]. unfold reduce.
  destruct (MPI_SUM_total N locals Hall b Hb) as (s & -> & Hs). cbn [bind].
  by exists s.
Qed.

Lemma first_half_spec N (dt : R) root others :
  holds N root -> Forall (holds N) others ->
  exists a x v,
    reduce_accelerations (root :: others)
    = Ok (a, call (Reduce Accelerations) <$> (root :: others)) /\
    length a = N /\
    positions root = Some x /\ velocities root = Some v /\
    first_half dt (root :: others)
    = Ok (Process (t root) (Some (drifted dt (kicked dt a v) x)) (masses root)
                  (Some (kicked dt a v))
                  (calls root ++ [Reduce Accelerations; Bcast Positions; Barrier])
            :: ((fun p => call Barrier (call (Reduce Accelerations) p)) <$> others)).
Proof.
  intros Hroot Hothers.
  destruct (reduce_accelerations_total N (root :: others)) as (a & Ha & Hlen);
    [done|by constructor|].
  pose proof Hroot as Hroot'. unfold holds in Hroot.
  destruct (positions root) as [x|] eqn:Hx; [|done].
  destruct (masses root) as [m|] eqn:Hm; [|done].
  destruct (velocities root) as [v|] eqn:Hv; [|done].
  destruct Hroot as (Hlx & Hlm & Hlv).
  exists a, x, v. split; [done|]. split; [done|]. split; [done|]. split; [done|].
  unfold first_half. rewrite Ha. cbn [bind fmap list_fmap at_root].
  unfold half_kick. cbn [call velocities array bind]. rewrite Hv. cbn [array bind].
  rewrite array_add_same_length by (rewrite length_fmap; lia). cbn [bind].
  unfold drift. cbn [set_velocities call positions velocities array bind].
  rewrite Hx. cbn [array bind].
  rewrite array_add_same_length.
  2:{ rewrite length_fmap, length_zip_with, length_fmap. lia. }
  cbn [bind]. unfold MPI_Bcast_positions. cbn [root_of bind]. rewrite imap_cons.
  rewrite bool_decide_true by done.
  match goal with |- context [imap ?f ?l] =>
    rewrite (imap_ext f (const Datatypes.id) l) by done end.
  rewrite imap_const, list_fmap_id. cbn [fmap list_fmap].
  rewrite <- list_fmap_compose. do 2 f_equal.
  unfold call, set_positions, set_velocities, kicked, drifted; cbn.
  rewrite Hm. by rewrite <- !app_assoc.
Qed.

Lemma second_half_spec N (dt : R) root others :
  holds N root -> Forall (holds N) others ->
  exists a v,
    reduce_accelerations (root :: others)
    = Ok (a, call (Reduce Accelerations) <$> (root :: others)) /\
    length a = N /\ velocities root = Some v /\
    second_half dt (root :: others)
    = Ok (Process (t root + dt)%R (positions root) (masses root)
                  (Some (kicked dt a v)) (calls root ++ [Reduce Accelerations])
            :: (call (Reduce Accelerations) <$> others)).
Proof.
  intros Hroot Hothers.
  destruct (reduce_accelerations_total N (root :: others)) as (a & Ha & Hlen);
    [done|by constructor|].
  unfold holds in Hroot.
  destruct (positions root) as [x|] eqn:Hx; [|done].
  destruct (masses root) as [m|] eqn:Hm; [|done].
  destruct (velocities root) as [v|] eqn:Hv; [|done].
  destruct Hroot as (Hlx & Hlm & Hlv).
  exists a, v. split; [done|]. split; [done|]. split; [done|].
  unfold second_half. rewrite Ha. cbn [bind fmap list_fmap at_root].
  unfold half_kick. cbn [call velocities array bind]. rewrite Hv. cbn [array bind].
  rewrite array_add_same_length by (rewrite length_fmap; lia). cbn [bind].
  do 2 f_equal.
  unfold advance, call, set_t, set_velocities, kicked; cbn.
  by rewrite Hx, Hm.
Qed.


Lemma startup_spec size (P0 : list (vec R)) (M0 : list R) (V0 : list (vec R)) :
  1 <= size ->
  startup size P0 M0 V0
  = Ok (replicate size (Process 0%R (Some P0) (Some M0) (Some V0) startup_calls)).
Proof.
  intros Hsize. unfold startup. destruct size as [|n]; [lia|].
  cbn [seq fmap list_fmap]. rewrite decide_True by done.
  unfold MPI_bcast. cbn [root_of bind fmap list_fmap].
  cbn [positions masses velocities set_positions set_masses set_velocities call].
  f_equal. cbn [replicate]. f_equal.
  rewrite <- !list_fmap_compose.
  erewrite const_fmap.
  - by rewrite length_seq.
  - intros _ rank _. unfold compose. destruct (decide (rank = 0)); reflexivity.
Qed.
Lemma worker_after_0 p : worker_after 0 p = p.
Proof. destruct p. unfold worker_after. simpl. by rewrite app_nil_r. Qed.

Lemma worker_after_S k p :
  worker_after k (call (Reduce Accelerations) (call Barrier (call (Reduce Accelerations) p)))
  = worker_after (S k) p.
Proof. unfold worker_after, call. simpl. f_equal. by rewrite <- !app_assoc. Qed.

(** One pass of the loop body over a world whose ranks all hold arrays of
    [N] rows: the root is kicked with the first reduction [a1], drifted,
    kicked with the second reduction [a2] and advanced; [a2] is reduced
    from the root at its new positions and every other rank at the
    positions it held before; the other ranks only make their three
    calls. *)
Lemma loop_body_spec N (dt : R) root others :
  holds N root -> Forall (holds N) others ->
  exists a1 a2 x v locals2,
    positions root = Some x /\ velocities root = Some v /\
    length a1 = N /\ length a2 = N /\
    reduce_accelerations (root :: others)
    = Ok (a1, call (Reduce Accelerations) <$> (root :: others)) /\
    evaluate (S (length others)) 0
      (set_positions (Some (drifted dt (kicked dt a1 v) x)) root :: others)
    = Ok locals2 /\
    reduce locals2 = Ok a2 /\
    loop_body dt (root :: others)
    = Ok (Process (t root + dt)%R (Some (drifted dt (kicked dt a1 v) x))
                  (masses root) (Some (kicked dt a2 (kicked dt a1 v)))
                  (calls root ++ root_calls)
            :: ((fun p => call (Reduce Accelerations)
                            (call Barrier (call (Reduce Accelerations) p)))
                  <$> others)).
Proof.
  intros Hroot Hothers.
  destruct (first_half_spec N dt root others Hroot Hothers)
    as (a1 & x & v & Ha1 & Hlen1 & Hx & Hv & Hfirst).
  set (root1 := Process _ _ _ _ _) in Hfirst.
  match type of Hfirst with _ = Ok (_ :: ?o) => set (others1 := o) in Hfirst end.
  assert (holds N root1) as Hroot1.
  { unfold holds in *. rewrite Hx, Hv in Hroot. subst root1. cbn.
    destruct (masses root); [|done]. destruct Hroot as (? & ? & ?).
    split; [|split; [done|]].
    - apply length_drifted; [by apply length_kicked|done].
    - by apply length_kicked. }
  assert (Forall (holds N) others1) as Hothers1.
  { subst others1. by apply Forall_fmap, (Forall_impl _ _ _ Hothers). }
  destruct (second_half_spec N dt root1 others1 Hroot1 Hothers1)
    as (a2 & v1 & Ha2 & Hlen2 & Hv1 & Hsecond).
  subst root1. cbn in Hv1. simplify_eq.
  unfold reduce_accelerations in Ha2.
  destruct (evaluate _ _ _) as [locals2|e] eqn:Heval; [|done]. cbn [bind] in Ha2.
  destruct (reduce locals2) as [a2'|e] eqn:Hreduce; [|done]. cbn [bind] in Ha2.
  simplify_eq.
  exists a1, a2, x, v, locals2.
  split; [done|]. split; [done|]. split; [done|]. split; [done|].
  split; [done|]. split; [|split; [done|]].
  - rewrite <- Heval. cbn [length]. subst others1. rewrite length_fmap.
    apply evaluate_ext. constructor; [done|].
    apply Forall2_fmap_r, Forall_Forall2_diag, Forall_true. done.
  - unfold loop_body. rewrite Hfirst. cbn [bind]. rewrite Hsecond.
    do 2 f_equal.
    + cbn. f_equal. by rewrite <- app_assoc.
    + subst others1. by rewrite <- list_fmap_compose.
Qed.

Lemma loop_body_holds N (dt : R) root others :
  holds N root -> Forall (holds N) others ->
  exists root',
    loop_body dt (root :: others)
    = Ok (root' :: ((fun p => call (Reduce Accelerations)
                            (call Barrier (call (Reduce Accelerations) p)))
                  <$> others)) /\
    holds N root' /\ t root' = (t root + dt)%R /\
    masses root' = masses root /\
    calls root' = calls root ++ root_calls.
Proof.
  intros Hroot Hothers.
  destruct (loop_body_spec N dt root others Hroot Hothers)
    as (a1 & a2 & x & v & locals2 & Hx & Hv & Hl1 & Hl2 & _ & _ & _ & Hbody).
  eexists. split; [exact Hbody|]. cbn. split; [|done].
  unfold holds in *. cbn. rewrite Hx, Hv in Hroot.
  destruct (masses root); [|done]. destruct Hroot as (? & ? & ?).
  split; [|split; [done|]].
  - apply length_drifted; [by apply length_kicked|done].
  - apply length_kicked; [done|]. by apply length_kicked.
Qed.

Lemma iterations_spec N (dt : R) k :
  forall root others,
    holds N root -> Forall (holds N) others ->
    exists root',
      iterations k dt (root :: others) = Ok (root' :: (worker_after k <$> others)) /\
      holds N root' /\ t root' = (t root + INR k * dt)%R /\
      masses root' = masses root /\
      calls root' = calls root ++ concat (replicate k root_calls).
Proof.
  induction k as [|k IH]; intros root others Hroot Hothers.
  - exists root. cbn [iterations]. split.
    { f_equal. f_equal. rewrite <- (list_fmap_id others) at 1.
      apply list_fmap_ext. intros _ p _. by rewrite worker_after_0. }
    split; [done|]. split; [simpl; lra|]. split; [done|].
    simpl. by rewrite app_nil_r.
  - destruct (loop_body_holds N dt root others Hroot Hothers)
      as (root1 & Hbody & Hroot1 & Ht1 & Hm1 & Hc1).
    match type of Hbody with _ = Ok (_ :: ?o) => set (others1 := o) in * end.
    assert (Forall (holds N) others1) as Hothers1.
    { subst others1. by apply Forall_fmap, (Forall_impl _ _ _ Hothers). }
    destruct (IH root1 others1 Hroot1 Hothers1)
      as (root' & Hiter & Hroot' & Ht' & Hm' & Hc').
    exists root'. cbn [iterations]. rewrite Hbody. cbn [bind]. rewrite Hiter.
    split.
    { do 2 f_equal. subst others1. rewrite <- list_fmap_compose. apply list_fmap_ext.
      intros _ p _. apply worker_after_S. }
    split; [done|]. split; [rewrite Ht', Ht1, S_INR; lra|].
    split; [congruence|].
    rewrite Hc', Hc1. cbn [replicate concat]. by rewrite <- app_assoc.
Qed.
Lemma main_loop_unfold fuel (t_end dt : R) w :
  main_loop fuel t_end dt w
  = if forallb (in_loop t_end) w then
      match fuel with
      | O => Running w
      | S fuel' =>
          match loop_body dt w with
          | Ok w' => main_loop fuel' t_end dt w'
          | Raise e => Failed e
          end
      end
    else if existsb (in_loop t_end) w then Hung w
    else Finished w.
Proof. by destruct fuel. Qed.

Lemma in_loop_R (t_end : R) p : in_loop t_end p = bool_decide (t p <= t_end)%R.
Proof. done. Qed.

(** Ranks whose [t] is 0 pass the loop test whenever [t_end] is not
    negative. *)
Lemma idle_ranks_in_loop (t_end : R) others :
  (0 <= t_end)%R -> Forall (fun p => t p = 0%R) others ->
  forallb (in_loop t_end) others = true.
Proof.
  intros Hend. induction 1 as [|p others Hp _ IH]; cbn [forallb]; [done|].
  rewrite IH, in_loop_R, Hp, bool_decide_true; done.
Qed.

Lemma idle_ranks_exist_in_loop (t_end : R) others :
  (0 <= t_end)%R -> others <> [] -> Forall (fun p => t p = 0%R) others ->
  existsb (in_loop t_end) others = true.
Proof.
  intros Hend Hne Hall. destruct Hall as [|p others Hp _]; [done|].
  cbn [existsb]. rewrite in_loop_R, Hp, bool_decide_true; done.
Qed.

Lemma idle_after_pass others :
  Forall (fun p => t p = 0%R) others ->
  Forall (fun p => t p = 0%R)
    ((fun p => call (Reduce Accelerations)
                 (call Barrier (call (Reduce Accelerations) p))) <$> others).
Proof. intros Hall. by apply Forall_fmap, (Forall_impl _ _ _ Hall). Qed.

Lemma holds_after_pass N others :
  Forall (holds N) others ->
  Forall (holds N)
    ((fun p => call (Reduce Accelerations)
                 (call Barrier (call (Reduce Accelerations) p))) <$> others).
Proof. intros Hall. by apply Forall_fmap, (Forall_impl _ _ _ Hall). Qed.

(** With a second rank that never advances its [t], the run never ends
    with every rank out of the loop. *)
Lemma main_loop_never_finishes N (t_end dt : R) fuel :
  (0 <= t_end)%R ->
  forall root others,
    others <> [] -> holds N root -> Forall (holds N) others ->
    Forall (fun p => t p = 0%R) others ->
    forall w', main_loop fuel t_end dt (root :: others) <> Finished w'.
Proof.
  intros Hend. induction fuel as [|fuel IH];
    intros root others Hne Hroot Hothers Hidle w'; rewrite main_loop_unfold.
  - destruct (forallb _ _); [done|].
    cbn [existsb]. rewrite idle_ranks_exist_in_loop by done.
    by rewrite orb_true_r.
  - destruct (forallb _ _).
    + destruct (loop_body_holds N dt root others Hroot Hothers)
        as (root1 & -> & Hroot1 & _).
      apply IH; [|done|by apply holds_after_pass|by apply idle_after_pass].
      destruct others; done.
    + cbn [existsb]. rewrite idle_ranks_exist_in_loop by done.
      by rewrite orb_true_r.
Qed.

(** The root leaves the loop after finitely many passes; the other ranks
    are then still in it. *)
Lemma main_loop_hangs N (t_end dt : R) m :
  (0 <= t_end)%R -> (0 < dt)%R ->
  forall root others,
    others <> [] -> holds N root -> Forall (holds N) others ->
    Forall (fun p => t p = 0%R) others ->
    (t_end < t root + INR m * dt)%R ->
    exists k root',
      k <= m /\
      main_loop k t_end dt (root :: others)
      = Hung (root' :: (worker_after k <$> others)) /\
      (t_end < t root')%R /\
      t root' = (t root + INR k * dt)%R /\
      calls root' = calls root ++ concat (replicate k root_calls).
Proof.
  intros Hend Hdt. induction m as [|m IH];
    intros root others Hne Hroot Hothers Hidle Hm.
  - exists 0, root. split; [done|]. rewrite main_loop_unfold. cbn [forallb existsb].
    rewrite in_loop_R. simpl in Hm. rewrite bool_decide_false by lra.
    cbn [andb orb]. rewrite idle_ranks_exist_in_loop by done.
    split.
    { do 2 f_equal. rewrite <- (list_fmap_id others) at 1.
      apply list_fmap_ext. intros _ p _. by rewrite worker_after_0. }
    split; [lra|]. split; [simpl; lra|]. simpl. by rewrite app_nil_r.
  - destruct (decide (t root <= t_end)%R) as [Hin|Hout].
    + destruct (loop_body_holds N dt root others Hroot Hothers)
        as (root1 & Hbody & Hroot1 & Ht1 & _ & Hc1).
      match type of Hbody with _ = Ok (_ :: ?o) => set (others1 := o) in * end.
      destruct (IH root1 others1) as (k & root' & Hk & Hloop & Hend' & Ht' & Hc').
      { subst others1. destruct others; done. }
      { done. }
      { by apply holds_after_pass. }
      { by apply idle_after_pass. }
      { rewrite Ht1. rewrite S_INR in Hm. lra. }
      exists (S k), root'. split; [lia|]. rewrite main_loop_unfold.
      cbn [forallb]. rewrite in_loop_R, bool_decide_true by done.
      rewrite idle_ranks_in_loop by done. cbn [andb].
      rewrite Hbody, Hloop. split.
      { do 2 f_equal. subst others1. rewrite <- list_fmap_compose.
        apply list_fmap_ext. intros _ p _. apply worker_after_S. }
      split; [done|]. split; [rewrite Ht', Ht1, S_INR; lra|].
      rewrite Hc', Hc1. cbn [replicate concat]. by rewrite <- app_assoc.
    + exists 0, root. split; [lia|]. rewrite main_loop_unfold. cbn [forallb existsb].
      rewrite in_loop_R. rewrite bool_decide_false by lra.
      cbn [andb orb]. rewrite idle_ranks_exist_in_loop by done.
      split.
      { do 2 f_equal. rewrite <- (list_fmap_id others) at 1.
        apply list_fmap_ext. intros _ p _. by rewrite worker_after_0. }
      split; [lra|]. split; [simpl; lra|]. simpl. by rewrite app_nil_r.
Qed.

(** A single rank leaves the loop after finitely many passes. *)
Lemma main_loop_single_rank_finishes N (t_end dt : R) m :
  (0 < dt)%R ->
  forall root,
    holds N root ->
    (t_end < t root + INR m * dt)%R ->
    exists k root',
      k <= m /\
      main_loop k t_end dt [root] = Finished [root'] /\
      (t_end < t root')%R /\ t root' = (t root + INR k * dt)%R.
Proof.
  intros Hdt. induction m as [|m IH]; intros root Hroot Hm.
  - exists 0, root. split; [done|]. rewrite main_loop_unfold. cbn [forallb existsb].
    rewrite in_loop_R. simpl in Hm. rewrite bool_decide_false by lra.
    cbn [andb orb]. split; [done|]. split; [lra|simpl; lra].
  - destruct (decide (t root <= t_end)%R) as [Hin|Hout].
    + destruct (loop_body_holds N dt root [] Hroot ltac:(constructor))
        as (root1 & Hbody & Hroot1 & Ht1 & _).
      destruct (IH root1) as (k & root' & Hk & Hloop & Hend' & Ht'); [done| |].
      { rewrite Ht1. rewrite S_INR in Hm. lra. }
      exists (S k), root'. split; [lia|]. rewrite main_loop_unfold.
      cbn [forallb]. rewrite in_loop_R, bool_decide_true by done. cbn [andb].
      rewrite Hbody. cbn [fmap list_fmap]. rewrite Hloop.
      split; [done|]. split; [done|]. rewrite Ht', Ht1, S_INR. lra.
    + exists 0, root. split; [lia|]. rewrite main_loop_unfold. cbn [forallb existsb].
      rewrite in_loop_R. rewrite bool_decide_false by lra.
      cbn [andb orb]. split; [done|]. split; [lra|simpl; lra].
Qed.
End ExactProgram.

(** ** A run on two ranks *)

Section FailingRun.
Local Open Scope R_scope.

Lemma stacked_rank0_of_2 :
  calculate_accelerations 0 2 stacked_bodies three_masses
  = Ok [(0, 0); (0, 0); (0, 0)].
Proof.
  destruct (calculate_accelerations_R 0 2 stacked_bodies three_masses)
    as (A & -> & Hlen & Hget); [lia|simpl; lia|].
  f_equal. apply list_three; [exact Hlen|kernel_rows Hget..].
Qed.

Lemma stacked_rank1_of_2 :
  calculate_accelerations 1 2 stacked_bodies three_masses
  = Ok [(0, 0); (0, 0); (0, 0)].
Proof.
  destruct (calculate_accelerations_R 1 2 stacked_bodies three_masses)
    as (A & -> & Hlen & Hget); [lia|simpl; lia|].
  f_equal. apply list_three; [exact Hlen|kernel_rows Hget..].
Qed.

Lemma startup_stacked :
  startup 2 stacked_bodies three_masses launch = Ok stacked_world.
Proof. by rewrite startup_spec by lia. Qed.

(** The first half of the first pass on the stacked system: the root moves
    body 2 to (1, 0); rank 1 keeps the stacked positions and makes no
    [Bcast]. *)
Lemma first_half_stacked :
  first_half (1 / 60) stacked_world
  = Ok [Process 0 (Some three_bodies) (Some three_masses) (Some launch)
                (startup_calls ++ [Reduce Accelerations; Bcast Positions; Barrier]);
        Process 0 (Some stacked_bodies) (Some three_masses) (Some launch)
                (startup_calls ++ [Reduce Accelerations; Barrier])].
Proof.
  unfold stacked_world. cbn [replicate].
  edestruct (first_half_spec 3 (1 / 60)) as (a & x & v & Ha & _ & Hx & Hv & ->);
    [| |f_equal].
  1: done.
  1: by repeat constructor.
  unfold reduce_accelerations in Ha.
  cbn [length evaluate array positions masses bind] in Ha.
  rewrite stacked_rank0_of_2, stacked_rank1_of_2 in Ha. simpl in Ha.
  cbn in Hx, Hv. simplify_eq.
  unfold kicked, drifted, three_bodies, launch, stacked_bodies. simpl.
  arrays_eq.
Qed.

Lemma second_reduction_stacked :
  reduce_accelerations
    [Process 0 (Some three_bodies) (Some three_masses) (Some launch)
             (startup_calls ++ [Reduce Accelerations; Bcast Positions; Barrier]);
     Process 0 (Some stacked_bodies) (Some three_masses) (Some launch)
             (startup_calls ++ [Reduce Accelerations; Barrier])]
  = Ok ([(G, 0); (0, 0); (- G, 0)],
        [Process 0 (Some three_bodies) (Some three_masses) (Some launch)
                 (startup_calls ++ [Reduce Accelerations; Bcast Positions; Barrier;
                                    Reduce Accelerations]);
         Process 0 (Some stacked_bodies) (Some three_masses) (Some launch)
                 (startup_calls ++ worker_calls)]).
Proof.
  unfold reduce_accelerations.
  cbn [length evaluate array positions masses bind].
  rewrite three_bodies_rank0_of_2, stacked_rank1_of_2. simpl.
  arrays_eq.
Qed.

(** C2 (failing input).  Two ranks, the stacked system, [dt = 1/60].  After
    the drift the root holds the positions [three_bodies]; rank 1 still holds
    [stacked_bodies].  The second reduction gives body 1 the acceleration
    (0, 0), computed by rank 1 at the positions before the drift; evaluated
    at the positions after the drift on both ranks it is (G, 0). *)
Theorem second_evaluation_uses_positions_before_drift :
  exists w0 w1 w2,
    startup 2 stacked_bodies three_masses launch = Ok w0 /\
    first_half (1 / 60) w0 = Ok w1 /\
    positions <$> w1 = [Some three_bodies; Some stacked_bodies] /\
    reduce_accelerations w1 = Ok ([(G, 0); (0, 0); (- G, 0)], w2) /\
    reduced_accelerations 2 three_bodies three_masses
    = Ok [(G, 0); (G, 0); (- G, 0)] /\
    (0, 0) <> (G, 0).
Proof.
  eexists _, _, _. split; [apply startup_stacked|].
  split; [apply first_half_stacked|]. split; [done|].
  split; [apply second_reduction_stacked|].
  split; [apply three_bodies_reduced_2|].
  intros [=]. pose proof G_pos. lra.
Qed.

(** C3 (failing input).  The same run at the barrier of the first pass: the
    root has called [Bcast] and holds the new positions, rank 1 has called
    [Reduce] and [Barrier] only and holds the old ones. *)
Theorem worker_holds_old_positions_at_barrier :
  exists w0 root worker,
    startup 2 stacked_bodies three_masses launch = Ok w0 /\
    first_half (1 / 60) w0 = Ok [root; worker] /\
    calls root = startup_calls ++ [Reduce Accelerations; Bcast Positions; Barrier] /\
    calls worker = startup_calls ++ [Reduce Accelerations; Barrier] /\
    (Bcast Positions ∉ calls worker) /\
    positions root = Some three_bodies /\
    positions worker = Some stacked_bodies /\
    positions root <> positions worker.
Proof.
  eexists _, _, _. split; [apply startup_stacked|].
  split; [apply first_half_stacked|]. split; [done|]. split; [done|].
  split; [|split; [done|split; [done|]]].
  - cbn. intros Hin. repeat (apply elem_of_cons in Hin as [[=]|Hin]).
    by apply elem_of_nil in Hin.
  - cbn. intros [=]. lra.
Qed.
End FailingRun.

Section Run.
Implicit Types (w others : world R) (p root : process R).

Lemma replicate_S_cons {A} n (x : A) : replicate (S n) x = x :: replicate n x.
Proof. done. Qed.

(** C4 (failing ranks).  [main] on two or more ranks, with arrays of one
    length: no amount of fuel ends the run with every rank out of the loop;
    after finitely many passes the root has left the loop ([t > 1]) while
    every other rank still has [t = 0] and passes the loop test. *)
Theorem loop_never_exits_on_workers (size N : nat)
    (P0 : list (vec R)) (M0 : list R) (V0 : list (vec R)) :
  2 <= size -> length P0 = N -> length M0 = N -> length V0 = N ->
  (forall fuel w, main fuel size P0 M0 V0 <> Finished w) /\
  (exists fuel root others,
     main fuel size P0 M0 V0 = Hung (root :: others) /\
     (1 < t root)%R /\ length others = size - 1 /\
     Forall (fun p => t p = 0%R /\ in_loop 1%R p = true) others).
Proof.
  intros Hsize HP HM HV. unfold main. rewrite startup_spec by lia.
  destruct size as [|[|n]]; [lia|lia|]. rewrite replicate_S_cons.
  set (p0 := Process 0%R (Some P0) (Some M0) (Some V0) startup_calls).
  assert (holds N p0) as Hp0 by done.
  assert (Forall (holds N) (replicate (S n) p0)) as Hothers
    by by apply Forall_replicate.
  assert (Forall (fun p => t p = 0%R) (replicate (S n) p0)) as Hidle
    by by apply Forall_replicate.
  split.
  - intros fuel w. eapply main_loop_never_finishes; try done.
    cbn [one of_Z R_scalar]. lra.
  - assert (0 <= one)%R as Hend0 by (cbn; lra).
    assert (0 < quotient one (of_Z 60))%R as Hdt by (cbn; lra).
    destruct (main_loop_hangs N one (quotient one (of_Z 60)) 61 Hend0 Hdt
                p0 (replicate (S n) p0))
      as (k & root' & _ & Hloop & Hend & _); [done..| |].
    { cbn. lra. }
    exists k, root', (worker_after k <$> replicate (S n) p0).
    split; [exact Hloop|]. split; [exact Hend|].
    split; [rewrite length_fmap, length_replicate; lia|].
    apply Forall_fmap, Forall_replicate. cbn. split; [done|].
    rewrite bool_decide_true; [done|lra].
Qed.

(** An instance of [loop_never_exits_on_workers]: the stacked system on two
    ranks. *)
Lemma loop_never_exits_on_workers_witness :
  (forall fuel w, main fuel 2 stacked_bodies three_masses launch <> Finished w) /\
  (exists fuel root others,
     main fuel 2 stacked_bodies three_masses launch = Hung (root :: others) /\
     (1 < t root)%R /\ length others = 1 /\
     Forall (fun p => t p = 0%R /\ in_loop 1%R p = true) others).
Proof.
  apply (loop_never_exits_on_workers 2 3); [lia|reflexivity..].
Defined.

(** With one rank the loop of [main] ends. *)
Lemma main_single_rank_finishes N (P0 : list (vec R)) (M0 : list R) (V0 : list (vec R)) :
  length P0 = N -> length M0 = N -> length V0 = N ->
  exists fuel root, main fuel 1 P0 M0 V0 = Finished [root] /\ (1 < t root)%R.
Proof.
  intros HP HM HV. unfold main. rewrite startup_spec by lia. cbn [replicate].
  set (p0 := Process 0%R (Some P0) (Some M0) (Some V0) startup_calls).
  assert (0 < quotient one (of_Z 60))%R as Hdt by (cbn; lra).
  destruct (main_loop_single_rank_finishes N one (quotient one (of_Z 60)) 61
              Hdt p0) as (k & root' & _ & Hloop & Hend & _); [done| |].
  { cbn. lra. }
  by exists k, root'.
Qed.

(** C8 (counterexample).  After start-up on two ranks, rank 1 holds the
    velocity array and has taken part in its broadcast. *)
Lemma velocities_reach_the_workers :
  exists w, startup 2 stacked_bodies three_masses launch = Ok w /\
            ~ velocities_only_at_coordinator w.
Proof.
  exists stacked_world. split; [apply startup_stacked|].
  intros Hclaim. destruct (Hclaim 1 _ eq_refl ltac:(lia)) as [Hnone _].
  discriminate Hnone.
Qed.

(** C8 (amended).  Start-up hands the velocity array to every rank, by the
    one call [bcast Velocities] every rank makes.  After any number of
    passes of the loop body every rank other than the root still holds that
    array unchanged, the calls it has made since are [worker_calls] per
    pass and those of the root [root_calls] per pass, and neither of them
    names the velocities. *)
Theorem velocities_sent_at_startup_only (size N k : nat) (dt : R)
    (P0 : list (vec R)) (M0 : list R) (V0 : list (vec R)) :
  1 <= size -> length P0 = N -> length M0 = N -> length V0 = N ->
  exists w0 root others,
    startup size P0 M0 V0 = Ok w0 /\
    length w0 = size /\
    Forall (fun p => velocities p = Some V0 /\ calls p = startup_calls) w0 /\
    iterations k dt w0 = Ok (root :: others) /\
    length others = size - 1 /\
    calls root = startup_calls ++ concat (replicate k root_calls) /\
    Forall (fun p => velocities p = Some V0 /\
                     calls p = startup_calls ++ concat (replicate k worker_calls))
           others /\
    (forall c, c ∈ root_calls ++ worker_calls ->
               c <> bcast Velocities /\ c <> Bcast Velocities /\
               c <> Reduce Velocities).
Proof.
  intros Hsize HP HM HV. rewrite startup_spec by lia.
  destruct size as [|n]; [lia|]. rewrite replicate_S_cons.
  set (p0 := Process 0%R (Some P0) (Some M0) (Some V0) startup_calls).
  destruct (iterations_spec N dt k p0 (replicate n p0))
    as (root' & Hiter & _ & _ & _ & Hcalls); [done|by apply Forall_replicate|].
  exists (p0 :: replicate n p0), root', (worker_after k <$> replicate n p0).
  split; [done|]. split; [by rewrite <- replicate_S_cons, length_replicate|].
  split; [by rewrite <- replicate_S_cons; apply Forall_replicate|].
  split; [exact Hiter|].
  split; [rewrite length_fmap, length_replicate; lia|].
  split; [exact Hcalls|]. split.
  - by apply Forall_fmap, Forall_replicate.
  - intros c Hc. cbn in Hc.
    repeat (apply elem_of_cons in Hc as [->|Hc]; [done|]).
    by apply elem_of_nil in Hc.
Qed.

(** An instance of [velocities_sent_at_startup_only]: two passes on the
    stacked system with two ranks. *)
Lemma velocities_sent_at_startup_only_witness :
  exists w0 root others,
    startup 2 stacked_bodies three_masses launch = Ok w0 /\
    length w0 = 2 /\
    Forall (fun p => velocities p = Some launch /\ calls p = startup_calls) w0 /\
    iterations 2 (1 / 60)%R w0 = Ok (root :: others) /\
    length others = 1 /\
    calls root = startup_calls ++ concat (replicate 2 root_calls) /\
    Forall (fun p => velocities p = Some launch /\
                     calls p = startup_calls ++ concat (replicate 2 worker_calls))
           others /\
    (forall c, c ∈ root_calls ++ worker_calls ->
               c <> bcast Velocities /\ c <> Bcast Velocities /\
               c <> Reduce Velocities).
Proof.
  apply (velocities_sent_at_startup_only 2 3 2 (1 / 60)%R); [lia|reflexivity..].
Defined.
End Run.

(** ** The model run in binary64 *)

Section Binary64.
Local Open Scope float_scope.

(** Rank 1 of 2 returns a zero row for body 1. *)
Example two_bodies_rank1_of_2_binary64 :
  calculate_accelerations 1 2 two_bodies64 two_masses64 = Ok [(0, 0); (0, 0)].
Proof. vm_compute. reflexivity. Qed.

(** The reduced array of the two bodies with one worker and with two. *)
Example two_bodies_reduced_binary64 :
  reduced_accelerations 1 two_bodies64 two_masses64 = Ok [(G, 0); (- G, 0)] /\
  reduced_accelerations 2 two_bodies64 two_masses64 = Ok [(G, 0); (0, 0)].
Proof. split; vm_compute; reflexivity. Qed.

(** The coincident pair raises no fault and yields finite numbers; with two
    workers the third body is pulled by one of the two coincident bodies
    only. *)
Example three_bodies_reduced_binary64 :
  reduced_accelerations 1 three_bodies64 three_masses64
  = Ok [(G, 0); (G, 0); (- (2 * G), 0)] /\
  reduced_accelerations 2 three_bodies64 three_masses64
  = Ok [(G, 0); (G, 0); (- G, 0)] /\
  all_finite [(G, 0); (G, 0); (- (2 * G), 0)] = true.
Proof. repeat split; vm_compute; reflexivity. Qed.

(** [main] on two ranks: after 60 passes rank 0 has [t > 1] and is out of
    the loop, rank 1 has [t = 0] and is still in it. *)
Example main_hangs_binary64 :
  match main 60 2 stacked_bodies64 three_masses64 launch64 with
  | Hung [root; worker] => PrimFloat.ltb 1 (t root) && PrimFloat.eqb (t worker) 0
  | _ => false
  end = true.
Proof. vm_compute. reflexivity. Qed.

(** [main] on one rank ends after 60 passes. *)
Example main_finishes_binary64 :
  match main 60 1 stacked_bodies64 three_masses64 launch64 with
  | Finished [root] => PrimFloat.ltb 1 (t root)
  | _ => false
  end = true.
Proof. vm_compute. reflexivity. Qed.
End Binary64.

(** ** More on the slice *)

Section Stripes.
Context {A : Type}.
Implicit Types (l : list A) (rank size : nat).

Lemma stride_empty l rank size :
  1 <= size -> length l <= rank -> stride size rank l = [].
Proof.
  intros Hsize Hrank. apply length_zero_iff_nil.
  destruct (length (stride size rank l)) as [|n] eqn:Hn; [done|].
  assert (0 < length (stride size rank l)) as H0 by lia.
  apply stride_length_lt in H0; lia.
Qed.

Lemma stride_fmap {B} (f : A -> B) l size :
  forall rank, stride size rank (f <$> l) = f <$> stride size rank l.
Proof.
  induction l as [|x l IH]; intros rank; simpl; [done|].
  destruct rank; simpl; by rewrite IH.
Qed.

(** X1. The number of rows of the slice [positions[rank::size]] is
    [(N + size - 1 - rank) / size] for [rank < size], and the slices of two
    ranks differ by at most one row, the lower rank holding the extra
    one. *)
Theorem stripes_balanced l size r r' :
  r <= r' -> r' < size ->
  length (stride size r l) = (length l + size - 1 - r) / size /\
  length (stride size r' l) <= length (stride size r l) /\
  length (stride size r l) <= length (stride size r' l) + 1.
Proof.
  intros Hrr Hr'. assert (1 <= size) as Hsize by lia.
  pose proof (fun i => stride_length_lt size r l i Hsize) as Hn.
  pose proof (fun i => stride_length_lt size r' l i Hsize) as Hn'.
  set (n := length (stride size r l)) in *.
  set (n' := length (stride size r' l)) in *.
  split; [|split].
  - set (q := (length l + size - 1 - r) / size).
    assert (n <= q) as Hle.
    { destruct n as [|k]; [lia|].
      apply Nat.div_le_lower_bound; [lia|].
      specialize (Hn k). nia. }
    assert (q <= n) as Hge.
    { destruct q as [|k] eqn:Hq; [lia|].
      pose proof (Nat.Div0.mul_div_le (length l + size - 1 - r) size) as Hmul.
      fold q in Hmul. rewrite Hq in Hmul.
      specialize (Hn k). nia. }
    lia.
  - destruct n' as [|k]; [lia|]. specialize (Hn' k). specialize (Hn k). nia.
  - destruct n as [|[|k]]; [lia|lia|].
    specialize (Hn (S k)). specialize (Hn' k). nia.
Qed.

End Stripes.

(** An instance of [stripes_balanced]: seven rows, ranks 0 and 2 of 3. *)
Lemma stripes_balanced_witness :
  length (stride 3 0 (seq 0 7)) = 3 /\
  length (stride 3 2 (seq 0 7)) <= length (stride 3 0 (seq 0 7)) /\
  length (stride 3 0 (seq 0 7)) <= length (stride 3 2 (seq 0 7)) + 1.
Proof.
  apply (stripes_balanced (seq 0 7) 3 0 2); lia.
Defined.

(** ** Edge cases of the kernel *)

(** X2. A rank that owns no body ([rank >= N], as with more workers than
    bodies) returns [N] zero rows, whatever the masses and in any
    arithmetic: the loops do not run and nothing is read from [masses]. *)
Theorem rank_without_bodies_returns_zeros {F} `{Scalar F}
    (rank size : nat) (positions : list (vec F)) (masses : list F) :
  1 <= size -> length positions <= rank ->
  calculate_accelerations rank size positions masses
  = Ok (replicate (length positions) vzero).
Proof.
  intros Hsize Hrank. unfold calculate_accelerations, slice_from.
  rewrite decide_False by lia. cbn [bind].
  by rewrite stride_empty.
Qed.

(** An instance of [rank_without_bodies_returns_zeros]: rank 3 of 4 on two
    bodies, in binary64, with a mass array of the wrong length. *)
Lemma rank_without_bodies_returns_zeros_witness :
  calculate_accelerations 3 4 two_bodies64 three_masses64
  = Ok (replicate 2 vzero).
Proof.
  apply (rank_without_bodies_returns_zeros 3 4 two_bodies64 three_masses64);
    simpl; lia.
Defined.

Section KernelEdges.
Local Open Scope R_scope.
Implicit Types (positions : list (vec R)) (masses : list R).

Lemma inner_loop_index_error positions local_i i masses :
  (i < length positions)%nat ->
  forall j acc,
    (j <= length positions)%nat ->
    (length positions < j + length masses)%nat ->
    inner_loop positions local_i i j masses acc = Raise IndexError.
Proof.
  intros Hi. induction masses as [|mass rest IH]; intros j acc Hj Hlen;
    simpl in *; [lia|].
  rewrite pair_step_R. destruct (decide (i = j)) as [->|Hij].
  - cbn [bind]. apply IH; lia.
  - unfold row. destruct (positions !! j) as [pj|] eqn:Hpj; cbn [bind]; [|done].
    apply lookup_lt_Some in Hpj. apply IH; lia.
Qed.

(** X3. When the mass array is longer than the position array, a rank that
    owns a body raises [IndexError]: the inner loop reads [positions[j]] for
    every index of [masses]. *)
Theorem longer_mass_array_raises_IndexError (rank size : nat) positions masses :
  (1 <= size)%nat -> (rank < length positions)%nat ->
  (length positions < length masses)%nat ->
  calculate_accelerations rank size positions masses = Raise IndexError.
Proof.
  intros Hsize Hrank Hlen. unfold calculate_accelerations, slice_from.
  rewrite decide_False by lia. cbn [bind].
  destruct (stride size rank positions) as [|local_0 rest] eqn:Hstride.
  { assert (0 < length (stride size rank positions))%nat as H0
      by (apply stride_length_lt; lia).
    rewrite Hstride in H0. simpl in H0. lia. }
  cbn [outer_loop]. rewrite inner_loop_index_error by (simpl; lia). done.
Qed.

(** An instance of [longer_mass_array_raises_IndexError]: two bodies, three
    masses, one worker. *)
Lemma longer_mass_array_raises_IndexError_witness :
  calculate_accelerations 0 1 two_bodies three_masses = Raise IndexError.
Proof.
  apply longer_mass_array_raises_IndexError; simpl; lia.
Defined.
End KernelEdges.

(** ** What the kernel computes *)

Section KernelResults.
Local Open Scope R_scope.
Implicit Types (positions : list (vec R)) (masses : list R).
Implicit Types (local_i pi pj acc c : vec R) (mass : R).

(** X4. What a rank returns in exact arithmetic, for [rank < size] and a
    mass array no longer than the position array: an array with one row per
    body; the row of an owned body [g] is the sum of the pair terms over the
    pairs [(j, mass)] of [enumerate(masses)] with [j] distinct from the
    local index [g / size]; every other row is zero. *)
Theorem rank_rows_characterised (rank size : nat) positions masses :
  (rank < size)%nat -> (length masses <= length positions)%nat ->
  exists A,
    calculate_accelerations rank size positions masses = Ok A /\
    length A = length positions /\
    forall g pg, positions !! g = Some pg ->
      A !! g = Some (if owns g rank size
                     then pull positions pg (g / size) 0 masses
                     else (0, 0)).
Proof. apply calculate_accelerations_R. Qed.

(** An instance of [rank_rows_characterised]: rank 0 of 2 on the three
    bodies. *)
Lemma rank_rows_characterised_witness :
  exists A,
    calculate_accelerations 0 2 three_bodies three_masses = Ok A /\
    length A = 3%nat /\
    forall g pg, three_bodies !! g = Some pg ->
      A !! g = Some (if owns g 0 2
                     then pull three_bodies pg (g / 2) 0 three_masses
                     else (0, 0)).
Proof.
  apply (rank_rows_characterised 0 2 three_bodies three_masses); simpl; lia.
Defined.

(** X5. With one worker and arrays of one length the kernel returns, for
    every body, the Newtonian acceleration: the sum over the other bodies
    [j] of [G M[j] (P[j] - P[i]) / |P[j] - P[i]|^3], coincident bodies
    skipped. *)
Theorem one_worker_computes_newton positions masses :
  length masses = length positions ->
  exists A,
    calculate_accelerations 0 1 positions masses = Ok A /\
    length A = length positions /\
    forall g, (g < length positions)%nat ->
      A !! g = Some (newton_acceleration positions masses g).
Proof. apply one_worker_newton. Qed.

(** An instance of [one_worker_computes_newton]: the three bodies. *)
Lemma one_worker_computes_newton_witness :
  exists A,
    calculate_accelerations 0 1 three_bodies three_masses = Ok A /\
    length A = 3%nat /\
    forall g, (g < 3)%nat ->
      A !! g = Some (newton_acceleration three_bodies three_masses g).
Proof.
  apply (one_worker_computes_newton three_bodies three_masses). reflexivity.
Defined.

Lemma pair_term_shift c local_i pj mass :
  pair_term (vadd local_i c) (vadd pj c) mass = pair_term local_i pj mass.
Proof.
  unfold pair_term, vadd. cbn [fst snd add R_scalar].
  replace (pj.1 + c.1 - (local_i.1 + c.1)) with (pj.1 - local_i.1) by ring.
  replace (pj.2 + c.2 - (local_i.2 + c.2)) with (pj.2 - local_i.2) by ring.
  done.
Qed.

Lemma pair_step_shift c positions local_i i j mass acc :
  pair_step (shift c positions) (vadd local_i c) i j mass acc
  = pair_step positions local_i i j mass acc.
Proof.
  rewrite !pair_step_R. case_decide; [done|].
  unfold row, shift. rewrite list_lookup_fmap.
  destruct (positions !! j) as [pj|]; cbn [fmap option_fmap option_map bind]; [|done].
  by rewrite pair_term_shift.
Qed.

Lemma inner_loop_shift c positions local_i i masses :
  forall j acc,
    inner_loop (shift c positions) (vadd local_i c) i j masses acc
    = inner_loop positions local_i i j masses acc.
Proof.
  induction masses as [|mass rest IH]; intros j acc; simpl; [done|].
  rewrite pair_step_shift.
  destruct (pair_step positions local_i i j mass acc); simpl; [apply IH|done].
Qed.

Lemma outer_loop_shift c positions masses locals :
  forall i,
    outer_loop (shift c positions) masses i ((fun p => vadd p c) <$> locals)
    = outer_loop positions masses i locals.
Proof.
  induction locals as [|local_i rest IH]; intros i; simpl; [done|].
  by rewrite inner_loop_shift, IH.
Qed.

(** X6. The result depends on the positions through their differences
    only: moving every body by the same vector [c] changes nothing, for
    every rank, worker count and input, faults included. *)
Theorem accelerations_translation_invariant (rank size : nat) c positions masses :
  calculate_accelerations rank size (shift c positions) masses
  = calculate_accelerations rank size positions masses.
Proof.
  unfold calculate_accelerations, slice_from. case_decide; [done|]. cbn [bind].
  replace (stride size rank (shift c positions))
    with ((fun p => vadd p c) <$> stride size rank positions)
    by (unfold shift; by rewrite stride_fmap).
  rewrite outer_loop_shift.
  replace (length (shift c positions)) with (length positions)
    by (unfold shift; by rewrite length_fmap).
  done.
Qed.

(** X7. For a row at [local_i] and a body at another position [pj], with
    [i != j], the loop body adds [G mass / d^3] times the offset
    [(dx, dy)], where [d] is the distance: the increment points from the row
    to the body and its squared length is [(G mass / d^2)^2]. *)
Theorem pair_increment_is_inverse_square positions local_i pj (i j : nat) mass :
  i <> j -> positions !! j = Some pj -> pj <> local_i ->
  let dx := pj.1 - local_i.1 in
  let dy := pj.2 - local_i.2 in
  let d := sqrt (dx * dx + dy * dy) in
  exists a,
    pair_step positions local_i i j mass (0, 0) = Ok a /\
    0 < d /\
    a = scale (G * mass / (d * d * d)) (dx, dy) /\
    a.1 * a.1 + a.2 * a.2 = (G * mass / (dx * dx + dy * dy)) ^ 2.
Proof.
  intros Hij Hpj Hne dx dy d.
  assert (0 < dx * dx + dy * dy) as Hr2.
  { destruct (Req_dec_T dx 0) as [Hx|Hx]; [|nra].
    destruct (Req_dec_T dy 0) as [Hy|Hy]; [|nra].
    exfalso. apply Hne. destruct pj, local_i. subst dx dy. simpl in *.
    apply vec_eq; lra. }
  assert (0 < d) as Hd by (by apply sqrt_lt_R0).
  assert (d * d = dx * dx + dy * dy) as Hdd by (apply sqrt_sqrt; lra).
  rewrite pair_step_R, decide_False by done. unfold row. rewrite Hpj. cbn [bind].
  eexists. split; [done|]. split; [done|].
  rewrite vadd_zero_l. unfold pair_term. fold dx dy d.
  rewrite decide_True by done. unfold scale. cbn [fst snd mul R_scalar].
  split.
  - apply vec_eq; field; lra.
  - rewrite <- Hdd.
    replace (G * mass / (d * d) * dx / d * (G * mass / (d * d) * dx / d) +
             G * mass / (d * d) * dy / d * (G * mass / (d * d) * dy / d))
      with ((G * mass) ^ 2 * (dx * dx + dy * dy) / (d * d * d * d * d * d))
      by (field; lra).
    rewrite <- Hdd. field. lra.
Qed.

(** An instance of [pair_increment_is_inverse_square]: the row at (0, 0)
    and body 1 of the two bodies, at (1, 0). *)
Lemma pair_increment_is_inverse_square_witness :
  exists a,
    pair_step two_bodies (0, 0) 0 1 1 (0, 0) = Ok a /\
    0 < sqrt ((1 - 0) * (1 - 0) + (0 - 0) * (0 - 0)) /\
    a = scale (G * 1 / (sqrt ((1 - 0) * (1 - 0) + (0 - 0) * (0 - 0)) *
                        sqrt ((1 - 0) * (1 - 0) + (0 - 0) * (0 - 0)) *
                        sqrt ((1 - 0) * (1 - 0) + (0 - 0) * (0 - 0))))
              (1 - 0, 0 - 0) /\
    a.1 * a.1 + a.2 * a.2 = (G * 1 / ((1 - 0) * (1 - 0) + (0 - 0) * (0 - 0))) ^ 2.
Proof.
  apply (pair_increment_is_inverse_square two_bodies (0, 0) (1, 0) 0 1 1).
  - lia.
  - reflexivity.
  - intros [=]. lra.
Defined.

(** X8. Lines 31-37 obey Newton's third law whenever both pairs pass the
    index test: what the row at [pi] receives from the body at [pj], times
    the mass of the first, is the opposite of what the row at [pj] receives
    from the body at [pi], times the mass of the second. *)
Theorem pair_increments_opposite positions pi pj (i j i' j' : nat) (mi mj : R) :
  i <> j -> i' <> j' ->
  positions !! j = Some pj -> positions !! j' = Some pi ->
  exists a b,
    pair_step positions pi i j mj (0, 0) = Ok a /\
    pair_step positions pj i' j' mi (0, 0) = Ok b /\
    scale mi a = scale (- mj) b.
Proof.
  intros Hij Hij' Hj Hj'. rewrite !pair_step_R, !decide_False by done.
  unfold row. rewrite Hj, Hj'. cbn [bind].
  eexists _, _. split; [done|]. split; [done|].
  rewrite !vadd_zero_l. apply pair_term_antisymmetric.
Qed.

(** An instance of [pair_increments_opposite]: the two bodies on one
    worker. *)
Lemma pair_increments_opposite_witness :
  exists a b,
    pair_step two_bodies (0, 0) 0 1 1 (0, 0) = Ok a /\
    pair_step two_bodies (1, 0) 1 0 1 (0, 0) = Ok b /\
    scale 1 a = scale (- 1) b.
Proof.
  apply (pair_increments_opposite two_bodies (0, 0) (1, 0) 0 1 1 0 1 1);
    [lia|lia|reflexivity|reflexivity].
Defined.
End KernelResults.

(** ** The reduction over the stripes *)

Section Reduction.
Local Open Scope R_scope.
Implicit Types (x acc : list (vec R)) (m : list R).

Lemma sum_stripes (size : nat) x m :
  (length m <= length x)%nat ->
  forall (k r : nat) acc,
    (r + k <= size)%nat -> length acc = length x ->
    exists bufs s,
      evaluate size r (replicate k (Process zero (Some x) (Some m) None [])) = Ok bufs /\
      MPI_SUM acc bufs = Ok s /\
      length s = length x /\
      forall g pg a, x !! g = Some pg -> acc !! g = Some a ->
        s !! g = Some (vadd a (if bool_decide (r <= g mod size < r + k)%nat
                               then pull x pg (g / size) 0 m
                               else (0, 0))).
Proof.
  intros Hm. induction k as [|k IH]; intros r acc Hr Hacc.
  - exists [], acc. split; [done|]. split; [done|]. split; [done|].
    intros g pg a _ Ha. rewrite bool_decide_false by lia.
    by rewrite vadd_zero_r.
  - destruct (calculate_accelerations_R r size x m) as (A & HA & HlenA & Hrows);
      [lia|done|].
    destruct (IH (S r) (zip_with vadd acc A)) as (bufs & s & Hev & Hsum & Hlen & Hs).
    { lia. }
    { rewrite length_zip_with. lia. }
    exists (A :: bufs), s.
    cbn [replicate evaluate positions masses array bind].
    rewrite HA. cbn [bind]. rewrite Hev. cbn [bind MPI_SUM].
    rewrite array_add_same_length by lia. cbn [bind].
    split; [done|]. split; [done|]. split; [done|].
    intros g pg a Hg Ha.
    rewrite (Hs g pg (vadd a (if owns g r size
                              then pull x pg (g / size) 0 m else (0, 0)))); [|done|].
    2:{ rewrite lookup_zip_with, Ha, (Hrows g pg Hg). done. }
    f_equal. unfold owns. rewrite vadd_assoc. f_equal.
    repeat case_bool_decide; try lia; by rewrite ?vadd_zero_l, ?vadd_zero_r.
Qed.

(** X9. The reduction puts the stripes back together.  For every worker
    count [size >= 1], when every rank holds the same positions and masses
    (the mass array no longer than the position array), row [g] of the
    reduced array is the row that the owner of [g] computed: the sum of the
    pair terms over the pairs [(j, mass)] with [j] distinct from [g / size]. *)
Theorem reduction_reassembles_stripes (size : nat) x m :
  (1 <= size)%nat -> (length m <= length x)%nat ->
  exists A,
    reduced_accelerations size x m = Ok A /\
    length A = length x /\
    forall g pg, x !! g = Some pg ->
      A !! g = Some (pull x pg (g / size) 0 m).
Proof.
  intros Hsize Hm. destruct size as [|n]; [lia|].
  destruct (calculate_accelerations_R 0 (S n) x m) as (A0 & HA0 & Hlen0 & Hrows);
    [lia|done|].
  destruct (sum_stripes (S n) x m Hm n 1 A0) as (bufs & s & Hev & Hsum & Hlen & Hs);
    [lia|done|].
  exists s. unfold reduced_accelerations.
  cbn [replicate evaluate positions masses array bind].
  rewrite HA0. cbn [bind]. rewrite Hev. cbn [bind reduce].
  split; [done|]. split; [done|].
  intros g pg Hg. rewrite (Hs g pg _ Hg (Hrows g pg Hg)). f_equal.
  pose proof (Nat.mod_upper_bound g (S n)).
  unfold owns. repeat case_bool_decide; try lia;
    by rewrite ?vadd_zero_l, ?vadd_zero_r.
Qed.

(** An instance of [reduction_reassembles_stripes]: the three bodies on two
    workers. *)
Lemma reduction_reassembles_stripes_witness :
  exists A,
    reduced_accelerations 2 three_bodies three_masses = Ok A /\
    length A = 3%nat /\
    forall g pg, three_bodies !! g = Some pg ->
      A !! g = Some (pull three_bodies pg (g / 2) 0 three_masses).
Proof.
  apply (reduction_reassembles_stripes 2 three_bodies three_masses); simpl; lia.
Defined.
End Reduction.

(** ** Start-up *)

(** X10. Start-up on [size >= 1] ranks, in any arithmetic: every rank ends
    with [t = 0], the three arrays of the root in place of its own [None],
    and the three [bcast] calls in its log. *)
Theorem startup_hands_out_initial_conditions {F} `{Scalar F} (size : nat)
    (P0 : list (vec F)) (M0 : list F) (V0 : list (vec F)) :
  1 <= size ->
  startup size P0 M0 V0
  = Ok (replicate size (Process zero (Some P0) (Some M0) (Some V0) startup_calls)).
Proof.
  intros Hsize. unfold startup. destruct size as [|n]; [lia|].
  cbn [seq fmap list_fmap]. rewrite decide_True by done.
  unfold MPI_bcast. cbn [root_of bind fmap list_fmap].
  cbn [positions masses velocities set_positions set_masses set_velocities call].
  f_equal. cbn [replicate]. f_equal.
  rewrite <- !list_fmap_compose.
  erewrite const_fmap.
  - by rewrite length_seq.
  - intros _ rank _. unfold compose. destruct (decide (rank = 0)); reflexivity.
Qed.

(** An instance of [startup_hands_out_initial_conditions]: four ranks in
    binary64. *)
Lemma startup_hands_out_initial_conditions_witness :
  startup 4 stacked_bodies64 three_masses64 launch64
  = Ok (replicate 4 (Process zero (Some stacked_bodies64) (Some three_masses64)
                             (Some launch64) startup_calls)).
Proof.
  apply (startup_hands_out_initial_conditions 4). lia.
Defined.

(** ** The loop *)

Section Loop.
Implicit Types (w others : world R) (p root : process R).
Implicit Types (x v a : list (vec R)).













Lemma main_loop_frames_unfold fuel (t_end dt : R) w frame_counts :
  main_loop_frames fuel t_end dt w frame_counts
  = if forallb (in_loop t_end) w then
      match fuel with
      | O => (Running w, frame_counts)
      | S fuel' =>
          match loop_body dt w with
          | Ok w' => main_loop_frames fuel' t_end dt w' (count_frame frame_counts)
          | Raise e => (Failed e, frame_counts)
          end
      end
    else if existsb (in_loop t_end) w then (Hung w, frame_counts)
    else (Finished w, frame_counts).
Proof. by destruct fuel. Qed.

(** X15. The frame counters follow the run without changing it: the
    outcome is that of [main_loop]; the counter of rank 0 has grown by the
    number [k] of passes rank 0 has made, which is also the number of
    [root_calls] blocks added to its log; the counters of the other ranks
    are what they were. *)
Theorem frame_counter_counts_root_passes N (t_end dt : R) fuel :
  forall root others (count : nat) (counts : list nat),
    holds N root -> Forall (holds N) others ->
    exists k root' others',
      k <= fuel /\
      main_loop_frames fuel t_end dt (root :: others) (count :: counts)
      = (main_loop fuel t_end dt (root :: others), (count + k) :: counts) /\
      final_world (main_loop fuel t_end dt (root :: others))
      = Some (root' :: others') /\
      calls root' = calls root ++ concat (replicate k root_calls).
Proof.
  induction fuel as [|fuel IH]; intros root others count counts Hroot Hothers;
    rewrite main_loop_frames_unfold, main_loop_unfold.
  - exists 0, root, others. split; [done|]. rewrite Nat.add_0_r.
    destruct (forallb _ _); [|destruct (existsb _ _)];
      (split; [done|]; split; [done|]; simpl; by rewrite app_nil_r).
  - destruct (forallb _ _).
    + destruct (loop_body_holds N dt root others Hroot Hothers)
        as (root1 & Hbody & Hroot1 & _ & _ & Hc1).
      rewrite Hbody. cbn [count_frame].
      edestruct (IH root1) as (k & root' & others' & Hk & Hframes & Hfinal & Hc);
        [exact Hroot1|by apply holds_after_pass|].
      exists (S k), root', others'. split; [lia|].
      rewrite Hframes. replace (count + S k) with (S count + k) by lia.
      split; [done|]. split; [exact Hfinal|].
      rewrite Hc, Hc1. cbn [replicate concat]. by rewrite <- app_assoc.
    + exists 0, root, others. split; [lia|]. rewrite Nat.add_0_r.
      destruct (existsb _ _);
        (split; [done|]; split; [done|]; simpl; by rewrite app_nil_r).
Qed.

(** An instance of [frame_counter_counts_root_passes]: seven units of fuel
    from the stacked world, both counters at 0. *)
Lemma frame_counter_counts_root_passes_witness :
  exists k root' others',
    k <= 7 /\
    main_loop_frames 7 1%R (1 / 60)%R stacked_world [0; 0]
    = (main_loop 7 1%R (1 / 60)%R stacked_world, [0 + k; 0]) /\
    final_world (main_loop 7 1%R (1 / 60)%R stacked_world)
    = Some (root' :: others') /\
    calls root' = startup_calls ++ concat (replicate k root_calls).
Proof.
  apply (frame_counter_counts_root_passes 3 1%R (1 / 60)%R 7
           (Process 0%R (Some stacked_bodies) (Some three_masses)
                    (Some launch) startup_calls)
           [Process 0%R (Some stacked_bodies) (Some three_masses)
                    (Some launch) startup_calls] 0 [0]).
  - simpl. repeat split.
  - repeat constructor.
Defined.

(** X16. [on_close] in exact arithmetic: on a rank other than 0 it reports
    nothing and exits; on rank 0 it raises [ZeroDivisionError] when the
    clock has not moved since [start_time], and otherwise reports
    [frame_count / (end_time - start_time)]. *)
Theorem on_close_reports_or_raises (rank frame_count : nat) (start_time end_time : R) :
  (rank <> 0 -> on_close rank frame_count start_time end_time = Ok None) /\
  on_close 0 frame_count start_time start_time = Raise ZeroDivisionError /\
  (end_time <> start_time ->
   on_close 0 frame_count start_time end_time
   = Ok (Some (INR frame_count / (end_time - start_time))%R)).
Proof.
  unfold on_close. split; [|split].
  - intros Hrank. by rewrite decide_False.
  - rewrite decide_True by done. cbn [sub R_scalar].
    assert (div (of_Z (Z.of_nat frame_count)) (start_time - start_time)%R
            = Raise ZeroDivisionError) as ->; [|done].
    apply div_faults_only_at_zero. lra.
  - intros Hne. rewrite decide_True by done. cbn [sub R_scalar].
    rewrite div_nonzero by lra. cbn [bind of_Z R_scalar].
    by rewrite <- INR_IZR_INZ.
Qed.

(** An instance of [on_close_reports_or_raises]: 61 frames. *)
Lemma on_close_reports_or_raises_witness :
  on_close 1 61 0%R 2%R = Ok None /\
  on_close 0 61 0%R 0%R = Raise ZeroDivisionError /\
  on_close 0 61 0%R 2%R = Ok (Some (INR 61 / (2 - 0))%R).
Proof.
  destruct (on_close_reports_or_raises 1 61 0%R 2%R) as (Hworker & _ & _).
  destruct (on_close_reports_or_raises 0 61 0%R 2%R) as (_ & Hzero & Hroot).
  split; [apply Hworker; lia|]. split; [exact Hzero|]. apply Hroot. lra.
Defined.
End Loop.

(** ** Time symmetry on one rank *)

Section Reversal.
Implicit Types (p root : process R).
Implicit Types (x v a : list (vec R)).

Lemma kicked_undo (dt : R) a :
  forall v, length a = length v -> kicked (- dt)%R a (kicked dt a v) = v.
Proof.
  unfold kicked. induction a as [|ag a IH]; intros [|vg v] Hlen; try done.
  simpl in *. f_equal; [|apply IH; lia].
  destruct vg, ag. unfold vadd, scale; simpl. apply vec_eq; lra.
Qed.

Lemma drifted_undo (dt : R) v :
  forall x, length v = length x -> drifted (- dt)%R v (drifted dt v x) = x.
Proof.
  unfold drifted. induction v as [|vg v IH]; intros [|xg x] Hlen; try done.
  simpl in *. f_equal; [|apply IH; lia].
  destruct vg, xg. unfold vadd, scale; simpl. apply vec_eq; lra.
Qed.

Lemma single_rank_reduction p x m A (w : world R) :
  positions p = Some x -> masses p = Some m ->
  reduce_accelerations [p] = Ok (A, w) ->
  calculate_accelerations 0 1 x m = Ok A.
Proof.
  intros Hx Hm. unfold reduce_accelerations.
  cbn [length evaluate bind]. rewrite Hx, Hm. cbn [array bind].
  destruct (calculate_accelerations 0 1 x m) as [A'|e]; cbn [bind reduce MPI_SUM];
    [|done].
  by intros [= -> _].
Qed.

Lemma single_rank_evaluation p x m locals A :
  positions p = Some x -> masses p = Some m ->
  evaluate 1 0 [p] = Ok locals -> reduce locals = Ok A ->
  calculate_accelerations 0 1 x m = Ok A.
Proof.
  intros Hx Hm. cbn [evaluate bind]. rewrite Hx, Hm. cbn [array bind].
  destruct (calculate_accelerations 0 1 x m) as [A'|e]; cbn [bind]; [|done].
  intros [= <-]. cbn [reduce MPI_SUM]. by intros [= ->].
Qed.

(** X17. On a single rank the pass is time-symmetric in exact arithmetic:
    a pass with step [dt] followed by a pass with step [-dt] raises nothing
    and brings positions, velocities, masses and [t] back to what they
    were. *)
Theorem single_rank_pass_is_reversible N (dt : R) root :
  holds N root ->
  exists root1 root2,
    loop_body dt [root] = Ok [root1] /\
    loop_body (- dt)%R [root1] = Ok [root2] /\
    positions root2 = positions root /\
    velocities root2 = velocities root /\
    masses root2 = masses root /\
    t root2 = t root.
Proof.
  intros Hroot.
  destruct (loop_body_spec N dt root [] Hroot ltac:(constructor))
    as (a1 & a2 & x & v & locals2 & Hx & Hv & Hl1 & Hl2 & Ha1 & Hev & Ha2 & Hbody).
  cbn [fmap list_fmap length] in Hbody, Hev.
  set (root1 := Process _ _ _ _ _) in Hbody.
  pose proof Hroot as Hshape. unfold holds in Hshape. rewrite Hx, Hv in Hshape.
  destruct (masses root) as [m|] eqn:Hm; [|done].
  destruct Hshape as (Hlx & Hlm & Hlv).
  assert (holds N root1) as Hroot1.
  { unfold holds. subst root1. cbn.
    split; [|split; [done|]].
    - apply length_drifted; [by apply length_kicked|done].
    - apply length_kicked; [done|by apply length_kicked]. }
  destruct (loop_body_spec N (- dt)%R root1 [] Hroot1 ltac:(constructor))
    as (b1 & b2 & x1 & v2 & locals2' & Hx1 & Hv2 & Hk1 & Hk2 & Hb1 & Hev' & Hb2 & Hbody').
  cbn [fmap list_fmap length] in Hbody', Hev'.
  subst root1. cbn in Hx1, Hv2. simplify_eq.
  (* the accelerations of the way back are those of the way out *)
  pose proof (single_rank_reduction root x m a1 _ Hx Hm Ha1) as HA1.
  assert (calculate_accelerations 0 1 (drifted dt (kicked dt a1 v) x) m = Ok a2)
    as HA2.
  { apply (single_rank_evaluation
             (set_positions (Some (drifted dt (kicked dt a1 v) x)) root)
             _ m locals2 a2); [reflexivity|exact Hm|exact Hev|exact Ha2]. }
  assert (calculate_accelerations 0 1 (drifted dt (kicked dt a1 v) x) m = Ok b1)
    as HB1.
  { eapply (single_rank_reduction _ _ m b1); [| |exact Hb1]; reflexivity. }
  rewrite HA2 in HB1. injection HB1 as <-.
  rewrite kicked_undo in Hev', Hbody'
    by (rewrite (length_kicked dt a1 v (length a1)); done).
  rewrite drifted_undo in Hev', Hbody'
    by (rewrite (length_kicked dt a1 v (length a1)); done).
  assert (calculate_accelerations 0 1 x m = Ok b2) as HB2.
  { eapply (single_rank_evaluation _ x m locals2' b2);
      [| |exact Hev'|exact Hb2]; reflexivity. }
  rewrite HA1 in HB2. injection HB2 as <-.
  rewrite kicked_undo in Hbody' by lia.
  eexists _, _. split; [exact Hbody|]. split; [exact Hbody'|].
  cbn. split; [done|]. split; [done|]. split; [done|]. lra.
Qed.

(** An instance of [single_rank_pass_is_reversible]: the stacked system. *)
Lemma single_rank_pass_is_reversible_witness :
  exists root1 root2,
    loop_body (1 / 60)%R
      [Process 0%R (Some stacked_bodies) (Some three_masses) (Some launch) []]
    = Ok [root1] /\
    loop_body (- (1 / 60))%R [root1] = Ok [root2] /\
    positions root2 = Some stacked_bodies /\
    velocities root2 = Some launch /\
    masses root2 = Some three_masses /\
    t root2 = 0%R.
Proof.
  apply (single_rank_pass_is_reversible 3 (1 / 60)%R
           (Process 0%R (Some stacked_bodies) (Some three_masses) (Some launch) [])).
  simpl. repeat split.
Defined.
End Reversal.

(** ** Coincident bodies and total force *)

Section Forces.
Local Open Scope R_scope.
Implicit Types (positions : list (vec R)) (masses : list R).
Implicit Types (pi pj p : vec R).

Lemma pull_coincident p (N : nat) (i : nat) masses :
  forall j, pull (replicate N p) p i j masses = (0, 0).
Proof.
  induction masses as [|mass rest IH]; intros j; simpl; [done|].
  rewrite IH. case_decide; [done|].
  destruct (replicate N p !! j) as [pj|] eqn:Hj; [|done].
  apply lookup_replicate in Hj as [-> _].
  by rewrite pair_term_self, vadd_zero_l.
Qed.

(** X18. When all [N] bodies sit at one point, every rank returns [N] zero
    rows: every pair has zero separation, nothing is added and nothing is
    divided. *)
Theorem coincident_bodies_feel_no_force (rank size N : nat) p masses :
  (rank < size)%nat -> (length masses <= N)%nat ->
  calculate_accelerations rank size (replicate N p) masses
  = Ok (replicate N (0, 0)).
Proof.
  intros Hr Hm.
  destruct (calculate_accelerations_R rank size (replicate N p) masses)
    as (A & -> & Hlen & Hrows); [done|by rewrite length_replicate|].
  rewrite length_replicate in Hlen. f_equal.
  apply list_eq. intros g. destruct (decide (g < N)%nat) as [Hg|Hg].
  - rewrite (Hrows g p) by (by apply lookup_replicate_2).
    rewrite lookup_replicate_2 by done. f_equal.
    destruct (owns g rank size); [apply pull_coincident|done].
  - rewrite !lookup_ge_None_2; [done|rewrite length_replicate; lia|lia].
Qed.

(** An instance of [coincident_bodies_feel_no_force]: the stacked system on
    rank 1 of 2. *)
Lemma coincident_bodies_feel_no_force_witness :
  calculate_accelerations 1 2 (replicate 3 (0, 0)) three_masses
  = Ok (replicate 3 (0, 0)).
Proof.
  apply (coincident_bodies_feel_no_force 1 2 3 (0, 0) three_masses); simpl; lia.
Defined.

Lemma newton_term_self pi m : newton_term pi pi m = (0, 0).
Proof. by rewrite <- pair_term_newton, pair_term_self. Qed.

Lemma newton_term_antisymmetric pi pj (mi mj : R) :
  vadd (scale mi (newton_term pi pj mj)) (scale mj (newton_term pj pi mi)) = (0, 0).
Proof.
  rewrite <- !pair_term_newton.
  pose proof (pair_term_antisymmetric pi pj mi mj) as Hanti.
  destruct (pair_term pi pj mj) as [a b], (pair_term pj pi mi) as [c d].
  unfold scale, vadd in *. cbn [fst snd mul add R_scalar] in *.
  injection Hanti as H1 H2. apply vec_eq; lra.
Qed.

(** The test [j != i] of the sum only drops a term that is zero. *)
Lemma newton_sum_drops_nothing pi (i : nat) bodies :
  forall j,
    (forall pj mj, (j <= i)%nat -> bodies !! (i - j)%nat = Some (pj, mj) -> pj = pi) ->
    newton_sum pi i j bodies = newton_sum_all pi bodies.
Proof.
  induction bodies as [|[pj mj] rest IH]; intros j Hself; simpl; [done|].
  rewrite IH.
  2:{ intros pk mk Hle Hk. apply (Hself pk mk); [lia|].
      replace (i - j)%nat with (S (i - S j)) by lia. done. }
  case_decide as Hji; [|done]. subst j.
  rewrite (Hself pj mj); [|lia|by rewrite Nat.sub_diag].
  by rewrite newton_term_self, vadd_zero_l.
Qed.

Lemma vadd_shuffle (a b c d : vec R) :
  vadd (vadd a b) (vadd c d) = vadd (vadd a c) (vadd b d).
Proof. destruct a, b, c, d. unfold vadd; simpl. apply vec_eq; lra. Qed.

Lemma scale_vadd (m : R) (a b : vec R) :
  scale m (vadd a b) = vadd (scale m a) (scale m b).
Proof. destruct a, b. unfold vadd, scale; simpl. apply vec_eq; lra. Qed.

Lemma scale_zero (m : R) : scale m (0, 0) = (0, 0).
Proof. unfold scale; simpl. apply vec_eq; lra. Qed.

Lemma newton_sum_all_cons pi (b : vec R * R) bodies :
  newton_sum_all pi (b :: bodies)
  = vadd (newton_term pi (fst b) (snd b)) (newton_sum_all pi bodies).
Proof. done. Qed.

(** The force of a list of bodies on one body, plus the force of that body
    on each of them, is zero. *)
Lemma forces_on_and_from (b : vec R * R) bodies :
  vadd (scale (snd b) (newton_sum_all (fst b) bodies))
       (foldr vadd (0, 0)
          ((fun c => scale (snd c) (newton_term (fst c) (fst b) (snd b))) <$> bodies))
  = (0, 0).
Proof.
  induction bodies as [|c rest IH]; cbn [fmap list_fmap foldr].
  - unfold newton_sum_all. cbn [foldr]. by rewrite scale_zero, vadd_zero_l.
  - rewrite newton_sum_all_cons, scale_vadd, vadd_shuffle, IH, vadd_zero_r.
    apply newton_term_antisymmetric.
Qed.

Lemma total_force_cons (b : vec R * R) extra rest :
  foldr vadd (0, 0)
    ((fun c => scale (snd c) (newton_sum_all (fst c) (b :: extra))) <$> rest)
  = vadd (foldr vadd (0, 0)
            ((fun c => scale (snd c) (newton_term (fst c) (fst b) (snd b))) <$> rest))
         (foldr vadd (0, 0)
            ((fun c => scale (snd c) (newton_sum_all (fst c) extra)) <$> rest)).
Proof.
  induction rest as [|c rest IH]; cbn [fmap list_fmap foldr].
  - by rewrite vadd_zero_l.
  - rewrite IH, newton_sum_all_cons, scale_vadd. apply vadd_shuffle.
Qed.

Lemma forces_cancel bodies :
  foldr vadd (0, 0)
    ((fun c => scale (snd c) (newton_sum_all (fst c) bodies)) <$> bodies)
  = (0, 0).
Proof.
  induction bodies as [|b rest IH]; [done|].
  cbn [fmap list_fmap foldr]. rewrite total_force_cons, IH, vadd_zero_r.
  rewrite newton_sum_all_cons, newton_term_self, vadd_zero_l.
  apply forces_on_and_from.
Qed.

Lemma zip_scale (f : vec R -> vec R) positions :
  forall masses,
    (fun c => scale (snd c) (f (fst c))) <$> zip positions masses
    = zip_with scale masses ((fun c => f (fst c)) <$> zip positions masses).
Proof.
  induction positions as [|p positions IH]; intros [|m masses]; try done.
  simpl. f_equal. apply IH.
Qed.

(** X19. With one worker and arrays of one length the accelerations obey
    Newton's third law in the large: the sum of mass times acceleration over
    all the bodies is zero. *)
Theorem one_worker_total_force_is_zero positions masses :
  length masses = length positions ->
  exists A,
    calculate_accelerations 0 1 positions masses = Ok A /\
    total_force masses A = (0, 0).
Proof.
  intros Hlen.
  destruct (one_worker_newton positions masses Hlen) as (A & HA & HlenA & Hrows).
  exists A. split; [done|].
  assert (A = (fun c => newton_sum_all (fst c) (zip positions masses))
                <$> zip positions masses) as ->.
  { apply list_eq. intros g. rewrite list_lookup_fmap.
    destruct (decide (g < length positions)%nat) as [Hg|Hg].
    - rewrite (Hrows g Hg). unfold newton_acceleration.
      destruct (lookup_lt_is_Some_2 positions g Hg) as [pg Hpg].
      destruct (lookup_lt_is_Some_2 masses g ltac:(lia)) as [mg Hmg].
      rewrite Hpg, lookup_zip_with, Hpg, Hmg. cbn. f_equal.
      apply newton_sum_drops_nothing. intros pj mj _ Hj.
      rewrite Nat.sub_0_r in Hj.
      apply lookup_zip_with_Some in Hj as (pg' & mg' & [= -> ->] & Hp' & _).
      congruence.
    - rewrite lookup_ge_None_2 by lia.
      rewrite lookup_ge_None_2; [done|].
      rewrite length_zip_with. lia. }
  unfold total_force.
  replace (zip_with scale masses
             ((fun c => newton_sum_all (fst c) (zip positions masses))
                <$> zip positions masses))
    with ((fun c => scale (snd c) (newton_sum_all (fst c) (zip positions masses)))
            <$> zip positions masses).
  { apply forces_cancel. }
  apply (zip_scale (fun p => newton_sum_all p (zip positions masses))).
Qed.

(** An instance of [one_worker_total_force_is_zero]: the three bodies. *)
Lemma one_worker_total_force_is_zero_witness :
  exists A,
    calculate_accelerations 0 1 three_bodies three_masses = Ok A /\
    total_force three_masses A = (0, 0).
Proof.
  apply (one_worker_total_force_is_zero three_bodies three_masses). reflexivity.
Defined.
End Forces.
